(** * SnapRead: the RSVP playback engine ([src/js/rsvp-engine.js])

    A shallow embedding of the [RSVPEngine] class and the properties of its
    timing model, ORP model, playback state machine and event system.

    Modelling conventions.
    - JavaScript numbers that the engine uses as counters (positions,
      lengths, rates, chunk sizes, counts) are integers and are modelled
      as [Z]; callers are assumed to pass integers, as the UI does.
    - Wherever the source leaves the integers (a division, a product with a
      decimal literal, [Math.round], [Math.floor], [Math.ceil], [%]) the value
      is an IEEE-754 binary64 number, modelled by the Standard Library's
      [spec_float] at precision 53.
    - A JavaScript string is its sequence of UTF-16 code units.
    - Listener callbacks are opaque identities; they are assumed not to call
      back into the engine.  An operation's observable output is the list of
      callback invocations it performs, in order.
    - The listener table is the plain object [{}] of the source: a name
      without an entry of its own still finds the members every object
      inherits from [Object.prototype], and a method call on such a member
      throws a [TypeError].  A call therefore ends by returning or by
      throwing; the state and the listener calls made up to that point stay.
    - The host's timer queue ([setTimeout] / [clearTimeout]) is part of the
      modelled state; a pending timer may fire at any later moment. *)

From Stdlib Require Import ZArith Lia List Bool String Ascii SpecFloat DecimalString.
From stdpp Require Import base gmap list strings.
Import ListNotations.

Open Scope Z_scope.

(* ===================================================================== *)
(** * JavaScript numbers                                                   *)
(* ===================================================================== *)

Module Number.

Definition prec : Z := 53.
Definition emax : Z := 1024.

(** A binary64 value. *)
Definition t : Type := spec_float.

(** An integer read as a number (exact up to 2^53, rounded beyond). *)
Definition of_Z (z : Z) : t := binary_normalize prec emax z 0 false.

Definition add : t -> t -> t := SFadd prec emax.
Definition mul : t -> t -> t := SFmul prec emax.
Definition div : t -> t -> t := SFdiv prec emax.
Definition ltb : t -> t -> bool := SFltb.

(** The decimal literal [m / 10^k]: the nearest binary64 value, which is
    what correctly rounded division of the two exact integers yields. *)
Definition decimal (m : Z) (k : Z) : t := div (of_Z m) (of_Z (10 ^ k)).

(** The signed integer mantissa of a finite value [m * 2^e]. *)
Definition mant (s : bool) (m : positive) : Z := cond_Zopp s (Zpos m).

(** [x % y]: the remainder of the truncating division, computed exactly;
    it carries the sign of the dividend. *)
Definition rem (x y : t) : t :=
  match x, y with
  | S754_nan, _ | _, S754_nan => S754_nan
  | S754_infinity _, _ => S754_nan
  | _, S754_zero _ => S754_nan
  | S754_zero _, _ => x
  | _, S754_infinity _ => x
  | S754_finite sx mx ex, S754_finite _ my ey =>
      let e0 := Z.min ex ey in
      let X := Zpos mx * 2 ^ (ex - e0) in
      let Y := Zpos my * 2 ^ (ey - e0) in
      binary_normalize prec emax (cond_Zopp sx (X mod Y)) e0 sx
  end.

(** The integer a number denotes once its fraction is dropped (towards
    zero); NaN and the infinities, which no index computation of the engine
    produces, read as 0. *)
Definition to_Z (x : t) : Z :=
  match x with
  | S754_finite s m e =>
      match e with
      | Zneg p => Z.quot (mant s m) (2 ^ Zpos p)
      | _ => mant s m * 2 ^ e
      end
  | _ => 0
  end.

End Number.

Module Math.
Import Number.

(** [Math.floor]: the largest integer not above [x]; zeros, infinities and
    NaN are returned unchanged, and a zero result keeps the sign of [x]. *)
Definition floor (x : t) : t :=
  match x with
  | S754_finite s m (Zneg p) =>
      binary_normalize prec emax (mant s m / 2 ^ Zpos p) 0 s
  | _ => x
  end.

(** [Math.ceil]: the smallest integer not below [x]. *)
Definition ceil (x : t) : t :=
  match x with
  | S754_finite s m (Zneg p) =>
      binary_normalize prec emax (- ((- mant s m) / 2 ^ Zpos p)) 0 s
  | _ => x
  end.

(** [Math.round]: the nearest integer, halves rounded towards +infinity,
    that is floor(x + 1/2) computed exactly. *)
Definition round (x : t) : t :=
  match x with
  | S754_finite s m (Zneg p) =>
      binary_normalize prec emax
        ((2 * mant s m + 2 ^ Zpos p) / 2 ^ (Zpos p + 1)) 0 s
  | _ => x
  end.

(** [Math.min] on numbers: NaN if either is NaN, and -0 below +0. *)
Definition min (x y : t) : t :=
  match x, y with
  | S754_nan, _ | _, S754_nan => S754_nan
  | S754_zero sx, S754_zero sy => S754_zero (sx || sy)
  | _, _ => if ltb y x then y else x
  end.

End Math.

(** The decimal literals of the source. *)
Definition lit_0_8 : Number.t := Eval vm_compute in Number.decimal 8 1.
Definition lit_1_0 : Number.t := Eval vm_compute in Number.of_Z 1.
Definition lit_1_2 : Number.t := Eval vm_compute in Number.decimal 12 1.
Definition lit_0_6 : Number.t := Eval vm_compute in Number.decimal 6 1.
Definition lit_0_3 : Number.t := Eval vm_compute in Number.decimal 3 1.
Definition lit_1_5 : Number.t := Eval vm_compute in Number.decimal 15 1.
Definition lit_0_35 : Number.t := Eval vm_compute in Number.decimal 35 2.

(* ===================================================================== *)
(** * JavaScript strings                                                   *)
(* ===================================================================== *)

(** A UTF-16 code unit. *)
Abbreviation jschar := N.

(** A string value: its code units. *)
Abbreviation jsstring := (list N).

(** ASCII text as a string value. *)
Fixpoint js (s : string) : jsstring :=
  match s with
  | EmptyString => []
  | String a rest => N_of_ascii a :: js rest
  end.

Definition ch (a : ascii) : jschar := N_of_ascii a.

(** [s.length] *)
Definition len {A} (l : list A) : Z := Z.of_nat (length l).

(** [s[i]] and [arr[i]]: [None] is [undefined], for every index outside
    [0 .. length-1]. *)
Definition at_index {A} (l : list A) (i : Z) : option A :=
  if i <? 0 then None else l !! Z.to_nat i.

(** [s.substring(start, end)]: both ends are clamped into [0, length] and
    swapped when [start > end]; a missing [end] is the length. *)
Definition substring (s : jsstring) (start : Z) (end_ : option Z) : jsstring :=
  let clampIdx i := Z.min (Z.max i 0) (len s) in
  let a := clampIdx start in
  let b := match end_ with Some e => clampIdx e | None => len s end in
  let from := Z.min a b in
  let to := Z.max a b in
  take (Z.to_nat (to - from)) (drop (Z.to_nat from) s).

(** [s.includes(c)] for a one-character needle. *)
Definition str_includes (s : jsstring) (c : jschar) : bool :=
  existsb (N.eqb c) s.

(** [[c1, c2, ...].includes(x)] where [x] is a one-character string or
    [undefined]. *)
Definition includes (xs : list jschar) (x : option jschar) : bool :=
  match x with
  | Some c => existsb (N.eqb c) xs
  | None => false
  end.

(** [arr.join(' ')]: [undefined] elements contribute the empty string. *)
Fixpoint join (chunk : list (option jsstring)) : jsstring :=
  match chunk with
  | [] => []
  | [w] => default [] w
  | w :: rest => default [] w ++ ch " " :: join rest
  end.

(** The character classes of the two regular expressions. *)
Definition in_range (lo hi c : N) : bool := ((lo <=? c) && (c <=? hi))%N.

(** [[a-zA-Z0-9]] *)
Definition is_alnum (c : jschar) : bool :=
  in_range (ch "a") (ch "z") c || in_range (ch "A") (ch "Z") c
  || in_range (ch "0") (ch "9") c.

(** [[a-zA-Z0-9À-ÿ'-]]; À is U+00C0 and ÿ is U+00FF. *)
Definition is_orp_char (c : jschar) : bool :=
  is_alnum c || in_range 192 255 c || N.eqb c (ch "'") || N.eqb c (ch "-").

(** [/[.!?]$/.test(word)]: the last code unit is one of . ! ? *)
Definition ends_sentence (w : jsstring) : bool :=
  match last w with
  | Some c => existsb (N.eqb c) [ch "."; ch "!"; ch "?"]
  | None => false
  end.

(** Number-to-string conversion for the values the engine formats: integers
    print in decimal (as JavaScript does below 10^21), NaN and the
    infinities by name. *)
Definition Number_toString (x : Number.t) : jsstring :=
  match x with
  | S754_nan => js "NaN"
  | S754_infinity false => js "Infinity"
  | S754_infinity true => js "-Infinity"
  | S754_zero _ => js "0"
  | _ => js (NilZero.string_of_int (Z.to_int (Number.to_Z x)))
  end.

(* ===================================================================== *)
(** * Data model                                                           *)
(* ===================================================================== *)

(** The object returned by [splitAtORP]. *)
Record ORPSplit := mkSplit {
  before : jsstring;
  orp : jsstring;
  after : jsstring;
  orpIndex : Z;
  wordLength : Z
}.

(** The object returned by [_progressData]. *)
Record Progress := mkProgress {
  current : Z;
  total : Z;
  percent : Number.t;
  wordsRemaining : Z;
  timeRemaining : jsstring
}.

(** The single argument handed to a listener. *)
Inductive Payload :=
| Undefined
| LoadData (totalWords index : Z)
| PauseData (wordIndex : Z)
| SpeedData (rate : Z)
| WordData (word : jsstring) (index : Z) (split : ORPSplit)
| ProgressData (p : Progress).

(** A listener, known only by its identity (functions compare by
    reference). *)
Abbreviation callback := nat.

(** One synchronous call [cb(data)] made while emitting [event]. *)
Inductive Invocation := Call (cb : callback) (event : string) (data : Payload).

Abbreviation Trace := (list Invocation).

(** A timer handle.  The host hands out integers greater than zero, so a
    stored handle is always truthy in [if (this.timerId)]. *)
Abbreviation handle := positive.

(** The fields of an [RSVPEngine] instance, followed by the part of the host
    the engine talks to: the timers that are scheduled and have neither fired
    nor been cleared (with their delays), and the next fresh handle. *)
Record Engine := mkEngine {
  words : list jsstring;
  currentIndex : Z;
  isPlaying : bool;
  isPaused : bool;
  timerId : option handle;
  wpm : Z;
  chunkSize : Z;
  _listeners : gmap string (list callback);
  scheduled : list (handle * Number.t);
  nextHandle : handle
}.

(** [new RSVPEngine()] in a host with no timers. *)
Definition constructor : Engine :=
  {| words := []; currentIndex := 0; isPlaying := false; isPaused := false;
     timerId := None; wpm := 300; chunkSize := 1; _listeners := ∅;
     scheduled := []; nextHandle := 1%positive |}.

Definition set_words v (s : Engine) : Engine :=
  mkEngine v (currentIndex s) (isPlaying s) (isPaused s) (timerId s) (wpm s)
           (chunkSize s) (_listeners s) (scheduled s) (nextHandle s).
Definition set_currentIndex v (s : Engine) : Engine :=
  mkEngine (words s) v (isPlaying s) (isPaused s) (timerId s) (wpm s)
           (chunkSize s) (_listeners s) (scheduled s) (nextHandle s).
Definition set_isPlaying v (s : Engine) : Engine :=
  mkEngine (words s) (currentIndex s) v (isPaused s) (timerId s) (wpm s)
           (chunkSize s) (_listeners s) (scheduled s) (nextHandle s).
Definition set_isPaused v (s : Engine) : Engine :=
  mkEngine (words s) (currentIndex s) (isPlaying s) v (timerId s) (wpm s)
           (chunkSize s) (_listeners s) (scheduled s) (nextHandle s).
Definition set_timerId v (s : Engine) : Engine :=
  mkEngine (words s) (currentIndex s) (isPlaying s) (isPaused s) v (wpm s)
           (chunkSize s) (_listeners s) (scheduled s) (nextHandle s).
Definition set_wpm v (s : Engine) : Engine :=
  mkEngine (words s) (currentIndex s) (isPlaying s) (isPaused s) (timerId s) v
           (chunkSize s) (_listeners s) (scheduled s) (nextHandle s).
Definition set_chunkSize v (s : Engine) : Engine :=
  mkEngine (words s) (currentIndex s) (isPlaying s) (isPaused s) (timerId s)
           (wpm s) v (_listeners s) (scheduled s) (nextHandle s).
Definition set_listeners v (s : Engine) : Engine :=
  mkEngine (words s) (currentIndex s) (isPlaying s) (isPaused s) (timerId s)
           (wpm s) (chunkSize s) v (scheduled s) (nextHandle s).
Definition set_scheduled v (s : Engine) : Engine :=
  mkEngine (words s) (currentIndex s) (isPlaying s) (isPaused s) (timerId s)
           (wpm s) (chunkSize s) (_listeners s) v (nextHandle s).
Definition set_nextHandle v (s : Engine) : Engine :=
  mkEngine (words s) (currentIndex s) (isPlaying s) (isPaused s) (timerId s)
           (wpm s) (chunkSize s) (_listeners s) (scheduled s) v.

(* ===================================================================== *)
(** * ORP model                                                            *)
(* ===================================================================== *)

(** [static calculateORP(word)] *)
Definition calculateORP (word : jsstring) : Z :=
  let cleanWord := List.filter is_orp_char word in
  let len := len cleanWord in
  if len <=? 0 then 0
  else if len =? 1 then 0
  else if len =? 2 then 0
  else if len =? 3 then 1
  else Number.to_Z (Math.floor (Number.mul (Number.of_Z len) lit_0_35)).

(** [static splitAtORP(word)] *)
Definition splitAtORP (word : jsstring) : ORPSplit :=
  let orpIndex := calculateORP word in
  {| before := substring word 0 (Some orpIndex);
     orp := match at_index word orpIndex with
            | Some c => [c]
            | None => []
            end;
     after := substring word (orpIndex + 1) None;
     orpIndex := orpIndex;
     wordLength := len word |}.

(* ===================================================================== *)
(** * Timing model                                                         *)
(* ===================================================================== *)

(** The three punctuation lists of [_calculateDelay]; code 34 is the double
    quote, which the third list of the source holds three times. *)
Definition sentencePunct : list jschar := [ch "."; ch "!"; ch "?"].
Definition clausePunct : list jschar := [ch ","; ch ";"; ch ":"].
Definition closingPunct : list jschar := [34%N; 34%N; 34%N; ch "'"; ch ")"].

(** The line feed and the pilcrow (U+00B6). *)
Definition newline : jschar := 10%N.
Definition pilcrow : jschar := 182%N.

(** [_calculateDelay(word)] *)
Definition _calculateDelay (s : Engine) (word : jsstring) : Number.t :=
  let baseDelay := Number.div (Number.of_Z 60000) (Number.of_Z (wpm s)) in
  let cleanLen := len (List.filter is_alnum word) in
  let modifier := lit_1_0 in
  let modifier :=
    if cleanLen <=? 3 then lit_0_8
    else if cleanLen >=? 8 then lit_1_2
    else modifier in
  let lastChar := at_index word (len word - 1) in
  let modifier :=
    if includes sentencePunct lastChar then Number.add modifier lit_1_0
    else if includes clausePunct lastChar then Number.add modifier lit_0_6
    else if includes closingPunct lastChar then Number.add modifier lit_0_3
    else modifier in
  let modifier :=
    if str_includes word newline || str_includes word pilcrow
    then Number.add modifier lit_1_5
    else modifier in
  Math.round (Number.mul baseDelay modifier).

(* ===================================================================== *)
(** * Progress                                                             *)
(* ===================================================================== *)

(** [_formatTime(minutes)] *)
Definition _formatTime (minutes : Number.t) : jsstring :=
  if Number.ltb minutes (Number.of_Z 1) then js "< 1 min"
  else if Number.ltb minutes (Number.of_Z 60) then
    Number_toString (Math.ceil minutes) ++ js " min"
  else
    let hrs := Math.floor (Number.div minutes (Number.of_Z 60)) in
    let mins := Math.ceil (Number.rem minutes (Number.of_Z 60)) in
    Number_toString hrs ++ js "h " ++ Number_toString mins ++ js "m".

(** [_progressData()] *)
Definition _progressData (s : Engine) : Progress :=
  let total := len (words s) in
  let current := currentIndex s in
  let percent :=
    if total >? 0
    then Number.mul (Number.div (Number.of_Z current) (Number.of_Z total))
                    (Number.of_Z 100)
    else Number.of_Z 0 in
  let wordsRemaining := Z.max 0 (total - current) in
  let minutesRemaining :=
    Number.div (Number.of_Z wordsRemaining) (Number.of_Z (wpm s)) in
  {| current := current;
     total := total;
     percent := Math.min (Number.of_Z 100) percent;
     wordsRemaining := wordsRemaining;
     timeRemaining := _formatTime minutesRemaining |}.

(* ===================================================================== *)
(** * Sentence boundary search                                             *)
(* ===================================================================== *)

(** [word && /[.!?]$/.test(word)]: false for [undefined] and for the empty
    string. *)
Definition sentence_end (w : option jsstring) : bool :=
  match w with
  | Some w => negb (bool_decide (w = [])) && ends_sentence w
  | None => false
  end.

(** The loop [for (let i = index - 1; i >= 0; i--)] with [k = i + 1]. *)
Fixpoint sentenceStartFrom (ws : list jsstring) (k : nat) : Z :=
  match k with
  | O => 0
  | S i =>
      if sentence_end (ws !! i) then Z.of_nat i + 1
      else sentenceStartFrom ws i
  end.

(** [_findSentenceStart(index)] *)
Definition _findSentenceStart (s : Engine) (index : Z) : Z :=
  sentenceStartFrom (words s) (Z.to_nat index).

(** The loop [for (let i = index; i < this.words.length; i++)]; [fuel] is
    the number of iterations left, [length - i]. *)
Fixpoint sentenceEndFrom (ws : list jsstring) (i : Z) (fuel : nat) : Z :=
  match fuel with
  | O => len ws - 1
  | S fuel' =>
      if sentence_end (at_index ws i) then Z.min (i + 1) (len ws - 1)
      else sentenceEndFrom ws (i + 1) fuel'
  end.

(** [_findSentenceEnd(index)] *)
Definition _findSentenceEnd (s : Engine) (index : Z) : Z :=
  sentenceEndFrom (words s) index (Z.to_nat (len (words s) - index)).

(* ===================================================================== *)
(** * Engine operations                                                    *)
(* ===================================================================== *)

(** The exception the engine's own code can raise: a method call on a value
    that has no such method. *)
Inductive Exception := TypeError.

(** How a call ends. *)
Inductive Outcome (A : Type) :=
| Returned (a : A)
| Thrown (e : Exception).

Arguments Returned {A} a.
Arguments Thrown {A} e.

(** A method body: it reads and writes the instance (and the host's timer
    queue), performs listener calls, and returns or throws.  What was
    written and called before a throw stays written and called. *)
Definition M (A : Type) : Type := Engine -> Outcome A * Engine * Trace.

Definition ret {A} (a : A) : M A := fun s => (Returned a, s, []).

Definition throw {A} (e : Exception) : M A := fun s => (Thrown e, s, []).

Definition bind {A B} (m : M A) (k : A -> M B) : M B :=
  fun s =>
    let '(r, s1, t1) := m s in
    match r with
    | Returned a => let '(b, s2, t2) := k a s1 in (b, s2, t1 ++ t2)
    | Thrown e => (Thrown e, s1, t1)
    end.

Definition get : M Engine := fun s => (Returned s, s, []).
Definition modify (f : Engine -> Engine) : M unit :=
  fun s => (Returned tt, f s, []).

Declare Scope engine_scope.
Delimit Scope engine_scope with engine.
Bind Scope engine_scope with M.
Notation "x <- m ;; k" := (bind m (fun x => k))
  (at level 100, m at next level, k at level 200, right associativity)
  : engine_scope.
Notation "m ;; k" := (bind m (fun _ => k))
  (at level 100, k at level 200, right associativity) : engine_scope.
Open Scope engine_scope.

(** The state and the trace a call leaves behind, and how it ended. *)
Definition state_after {A} (m : M A) (s : Engine) : Engine := snd (fst (m s)).
Definition trace_of {A} (m : M A) (s : Engine) : Trace := snd (m s).
Definition result_of {A} (m : M A) (s : Engine) : Outcome A := fst (fst (m s)).

(** The call ends by throwing. *)
Definition throws {A} (m : M A) (s : Engine) : bool :=
  match result_of m s with
  | Thrown _ => true
  | Returned _ => false
  end.

(** ** Host timers *)

(** [setTimeout(() => this._tick(), delay)]: the host queues the step and
    returns a fresh handle. *)
Definition setTimeout (delay : Number.t) : M handle :=
  fun s =>
    let id := nextHandle s in
    (Returned id,
     set_nextHandle (Pos.succ id) (set_scheduled (scheduled s ++ [(id, delay)]) s),
     []).

(** [clearTimeout(id)]: the host drops the step, if it is still queued. *)
Definition clearTimeout (id : handle) : M unit :=
  modify (fun s =>
    set_scheduled
      (List.filter (fun e => negb (Pos.eqb (fst e) id)) (scheduled s)) s).

(** The handles of the steps that are outstanding. *)
Definition outstanding (s : Engine) : list handle := map fst (scheduled s).

(** ** Event system *)

(** The names of the members of [Object.prototype].  The table
    [this._listeners = {}] is a plain object, so it inherits them all. *)
Definition object_prototype : list string :=
  ["constructor"; "__defineGetter__"; "__defineSetter__"; "hasOwnProperty";
   "__lookupGetter__"; "__lookupSetter__"; "isPrototypeOf";
   "propertyIsEnumerable"; "toString"; "valueOf"; "__proto__";
   "toLocaleString"]%string.

Definition inherited (event : string) : bool :=
  existsb (String.eqb event) object_prototype.

(** What [this._listeners[event]] evaluates to. *)
Inductive Member :=
| Absent                       (* [undefined] *)
| Entry (cbs : list callback)  (* the array stored under the name *)
| Foreign.                     (* a member of [Object.prototype] *)

(** [this._listeners[event]]: the entry of the table itself when it has
    one, else what the prototype has under that name.  A [Foreign] member
    is a function (for [__proto__], the prototype object): it is truthy and
    has no [push], [filter] or [forEach]. *)
Definition listeners_at (s : Engine) (event : string) : Member :=
  match _listeners s !! event with
  | Some cbs => Entry cbs
  | None => if inherited event then Foreign else Absent
  end.

(** [cbs.forEach(cb => cb(data))] while emitting [event]. *)
Definition forEach_call (cbs : list callback) (event : string) (data : Payload)
  : M unit :=
  fun s => (Returned tt, s, map (fun cb => Call cb event data) cbs).

(** [_emit(event, data)] *)
Definition _emit (event : string) (data : Payload) : M unit :=
  s <- get ;;
  match listeners_at s event with
  | Absent => ret tt
  | Entry cbs => forEach_call cbs event data
  | Foreign => throw TypeError
  end.

(** [off(event, callback)] *)
Definition off (event : string) (cb : callback) : M unit :=
  s <- get ;;
  match listeners_at s event with
  | Absent => ret tt
  | Entry cbs =>
      modify (set_listeners
        (<[event := List.filter (fun c => negb (Nat.eqb c cb)) cbs]> (_listeners s)))
  | Foreign => throw TypeError
  end.

(** [on(event, callback)]; the result is the closure
    [() => this.off(event, callback)]. *)
Definition on (event : string) (cb : callback) : M (M unit) :=
  s <- get ;;
  (match listeners_at s event with
   | Absent => modify (set_listeners (<[event := []]> (_listeners s)))
   | _ => ret tt
   end) ;;
  s <- get ;;
  match listeners_at s event with
  | Entry cbs =>
      modify (set_listeners (<[event := cbs ++ [cb]]> (_listeners s))) ;;
      ret (off event cb)
  | _ => throw TypeError
  end.

(** ** Internal methods *)

(** [_clearTimer()] *)
Definition _clearTimer : M unit :=
  s <- get ;;
  match timerId s with
  | Some id => clearTimeout id ;; modify (set_timerId None)
  | None => ret tt
  end.

(** The loop that gathers the chunk:
    [for (let i = 0; i < this.chunkSize && this.currentIndex + i < this.words.length; i++)];
    [n] is the number of iterations the first condition still allows. *)
Fixpoint gatherChunk (ws : list jsstring) (index i : Z) (n : nat)
  : list (option jsstring) :=
  match n with
  | O => []
  | S n' =>
      if index + i <? len ws
      then at_index ws (index + i) :: gatherChunk ws index (i + 1) n'
      else []
  end.

(** [chunk.join(' ')] for the chunk at the current position. *)
Definition displayWord (s : Engine) : jsstring :=
  join (gatherChunk (words s) (currentIndex s) 0 (Z.to_nat (chunkSize s))).

(** The payload of a [word] event. *)
Definition wordPayload (s : Engine) : Payload :=
  WordData (displayWord s) (currentIndex s) (splitAtORP (displayWord s)).

(** [_emitCurrentWord()] *)
Definition _emitCurrentWord : M unit :=
  s <- get ;;
  if currentIndex s <? len (words s)
  then _emit "word" (wordPayload s)
  else ret tt.

(** [_tick()] *)
Definition _tick : M unit :=
  s <- get ;;
  if negb (isPlaying s) || (currentIndex s >=? len (words s)) then
    if currentIndex s >=? len (words s) then
      modify (set_isPlaying false) ;;
      _emit "end" Undefined
    else ret tt
  else
    _emit "word" (wordPayload s) ;;
    s <- get ;;
    _emit "progress" (ProgressData (_progressData s)) ;;
    s <- get ;;
    let delay := _calculateDelay s (displayWord s) in
    modify (set_currentIndex (currentIndex s + chunkSize s)) ;;
    id <- setTimeout delay ;;
    modify (set_timerId (Some id)).

(** ** Public API *)

(** [load(words, startIndex = 0)] *)
Definition load (ws : list jsstring) (startIndex : option Z) : M unit :=
  let startIndex := default 0 startIndex in
  modify (set_words ws) ;;
  modify (set_currentIndex (Z.min startIndex (len ws - 1))) ;;
  modify (set_isPlaying false) ;;
  modify (set_isPaused false) ;;
  _clearTimer ;;
  s <- get ;;
  _emit "load" (LoadData (len ws) (currentIndex s)).

(** [play()] *)
Definition play : M unit :=
  s <- get ;;
  if len (words s) =? 0 then ret tt
  else
    (if currentIndex s >=? len (words s)
     then modify (set_currentIndex 0)
     else ret tt) ;;
    modify (set_isPlaying true) ;;
    modify (set_isPaused false) ;;
    _emit "play" Undefined ;;
    _tick.

(** [pause()] *)
Definition pause : M unit :=
  modify (set_isPlaying false) ;;
  modify (set_isPaused true) ;;
  _clearTimer ;;
  s <- get ;;
  _emit "pause" (PauseData (currentIndex s)).

(** [togglePlay()] *)
Definition togglePlay : M unit :=
  s <- get ;;
  if isPlaying s then pause else play.

(** [rewind(count)]; [None] is a call without argument. *)
Definition rewind (count : option Z) : M unit :=
  s <- get ;;
  (match count with
   | Some count => modify (set_currentIndex (Z.max 0 (currentIndex s - count)))
   | None => modify (set_currentIndex (_findSentenceStart s (currentIndex s)))
   end) ;;
  _emitCurrentWord ;;
  s <- get ;;
  _emit "progress" (ProgressData (_progressData s)).

(** [skip(count)] *)
Definition skip (count : option Z) : M unit :=
  s <- get ;;
  (match count with
   | Some count =>
       modify (set_currentIndex (Z.min (len (words s) - 1) (currentIndex s + count)))
   | None => modify (set_currentIndex (_findSentenceEnd s (currentIndex s)))
   end) ;;
  _emitCurrentWord ;;
  s <- get ;;
  _emit "progress" (ProgressData (_progressData s)).

(** [jumpTo(index)] *)
Definition jumpTo (index : Z) : M unit :=
  s <- get ;;
  modify (set_currentIndex (Z.max 0 (Z.min index (len (words s) - 1)))) ;;
  _emitCurrentWord ;;
  s <- get ;;
  _emit "progress" (ProgressData (_progressData s)).

(** [setSpeed(wpm)] *)
Definition setSpeed (rate : Z) : M unit :=
  modify (set_wpm (Z.max 50 (Z.min 1500 rate))) ;;
  s <- get ;;
  _emit "speedChange" (SpeedData (wpm s)).

(** [setChunkSize(size)] *)
Definition setChunkSize (size : Z) : M unit :=
  modify (set_chunkSize (Z.max 1 (Z.min 3 size))).

(** [stop()] *)
Definition stop : M unit :=
  modify (set_isPlaying false) ;;
  modify (set_isPaused false) ;;
  _clearTimer ;;
  _emit "stop" Undefined.

(** [getProgress()] *)
Definition getProgress : M Progress :=
  s <- get ;;
  ret (_progressData s).

(** ** The engine as a transition system *)

(** What can happen to an engine: a call of a public method, or the host
    running the callback of a timer. *)
Inductive Action :=
| ALoad (ws : list jsstring) (startIndex : option Z)
| APlay
| APause
| ATogglePlay
| ARewind (count : option Z)
| ASkip (count : option Z)
| AJumpTo (index : Z)
| ASetSpeed (rate : Z)
| ASetChunkSize (size : Z)
| AStop
| AGetProgress
| AOn (event : string) (cb : callback)
| AOff (event : string) (cb : callback)
| AFire (id : handle).

(** The host runs [() => this._tick()] for a timer that is due: the timer
    leaves the queue, then the step executes. *)
Definition fire (id : handle) : M unit :=
  clearTimeout id ;; _tick.

(** A step of the system: the state and the listener calls the action
    leaves behind, whether the call returns or throws; [None] when the
    action cannot happen (only a queued timer fires). *)
Definition exec (a : Action) (s : Engine) : option (Engine * Trace) :=
  let run {A} (m : M A) := Some (state_after m s, trace_of m s) in
  match a with
  | ALoad ws i => run (load ws i)
  | APlay => run play
  | APause => run pause
  | ATogglePlay => run togglePlay
  | ARewind c => run (rewind c)
  | ASkip c => run (skip c)
  | AJumpTo i => run (jumpTo i)
  | ASetSpeed r => run (setSpeed r)
  | ASetChunkSize c => run (setChunkSize c)
  | AStop => run stop
  | AGetProgress => run getProgress
  | AOn e cb => run (on e cb)
  | AOff e cb => run (off e cb)
  | AFire id =>
      if bool_decide (id ∈ outstanding s) then run (fire id) else None
  end.

(** Running a sequence of actions, collecting the listener calls. *)
Fixpoint execs (acts : list Action) (s : Engine) : option (Engine * Trace) :=
  match acts with
  | [] => Some (s, [])
  | a :: rest =>
      match exec a s with
      | None => None
      | Some (s1, t1) =>
          match execs rest s1 with
          | None => None
          | Some (s2, t2) => Some (s2, t1 ++ t2)
          end
      end
  end.

(** States reachable from a fresh engine by actions that satisfy a side
    condition [ok] (which may depend on the state the action is taken in). *)
Inductive reachable (ok : Engine -> Action -> Prop) : Engine -> Prop :=
| reach_init : reachable ok constructor
| reach_step s a s' t :
    reachable ok s -> ok s a -> exec a s = Some (s', t) -> reachable ok s'.

(* ===================================================================== *)
(** * Specification-side definitions                                       *)
(* ===================================================================== *)

(** These follow the wording of the specification; the theorems below
    compare them with the methods above. *)

(** ** Timing model *)

(** The length factor, on the alphanumeric-stripped length. *)
Definition lengthFactor (n : Z) : Number.t :=
  if n <=? 3 then lit_0_8 else if 8 <=? n then lit_1_2 else lit_1_0.

(** The bonus chosen by the last character; no character, or any other
    character, adds nothing. *)
Definition punctuationBonus (lastChar : option jschar) : Number.t :=
  match lastChar with
  | None => Number.of_Z 0
  | Some c =>
      if bool_decide (c ∈ [ch "."; ch "!"; ch "?"]) then lit_1_0
      else if bool_decide (c ∈ [ch ","; ch ";"; ch ":"]) then lit_0_6
      else if bool_decide (c ∈ [34%N; ch "'"; ch ")"]) then lit_0_3
      else Number.of_Z 0
  end.

(** The paragraph-break bonus. *)
Definition paragraphBonus (w : jsstring) : Number.t :=
  if bool_decide (newline ∈ w ∨ pilcrow ∈ w) then lit_1_5 else Number.of_Z 0.

Definition strippedLength (w : jsstring) : Z :=
  len (List.filter is_alnum w).

Definition modifier_of (w : jsstring) : Number.t :=
  Number.add
    (Number.add (lengthFactor (strippedLength w)) (punctuationBonus (last w)))
    (paragraphBonus w).

(** round((60000 / r) × modifier) *)
Definition delay_formula (w : jsstring) (r : Z) : Number.t :=
  Math.round
    (Number.mul (Number.div (Number.of_Z 60000) (Number.of_Z r)) (modifier_of w)).


(** ** ORP model *)

(** The clean length: the number of characters inside [A-Za-z0-9À-ÿ'-]. *)
Definition cleanLength (w : jsstring) : Z :=
  len (List.filter is_orp_char w).

(** The index for a clean length: 0 up to 2, 1 at 3, floor(len × 0.35) from
    4 on. *)
Definition orpIndex_of (n : Z) : Z :=
  if n <=? 2 then 0
  else if n =? 3 then 1
  else Number.to_Z (Math.floor (Number.mul (Number.of_Z n) lit_0_35)).

(** The split of the original string at index [i]. *)
Definition split_at (w : jsstring) (i : Z) : ORPSplit :=
  {| before := take (Z.to_nat i) w;
     orp := match w !! Z.to_nat i with Some c => [c] | None => [] end;
     after := drop (Z.to_nat (i + 1)) w;
     orpIndex := i;
     wordLength := len w |}.

(** A number that is not a negative finite value. *)
Definition not_negative (x : Number.t) : Prop :=
  match x with
  | S754_finite true _ _ => False
  | _ => True
  end.

(** ** Sentence boundary search *)

(** The word at position [k] exists and its last character is . ! or ? *)
Definition sentence_final (ws : list jsstring) (k : Z) : Prop :=
  ∃ w c, at_index ws k = Some w ∧ last w = Some c
         ∧ c ∈ [ch "."; ch "!"; ch "?"].

(** [r] is the position right after the first sentence-final word met when
    scanning backward from [i - 1], or 0 when there is none. *)
Definition sentence_start_of (ws : list jsstring) (i r : Z) : Prop :=
  (∃ j, 0 <= j < i ∧ sentence_final ws j
        ∧ (∀ k, j < k < i -> ¬ sentence_final ws k) ∧ r = j + 1)
  ∨ ((∀ k, 0 <= k < i -> ¬ sentence_final ws k) ∧ r = 0).

(** [r] is the position right after the first sentence-final word met when
    scanning forward from [i] inclusive, clamped to [length - 1], or
    [length - 1] when there is none. *)
Definition next_sentence_of (ws : list jsstring) (i r : Z) : Prop :=
  (∃ j, i <= j < len ws ∧ sentence_final ws j
        ∧ (∀ k, i <= k < j -> ¬ sentence_final ws k)
        ∧ r = Z.min (j + 1) (len ws - 1))
  ∨ ((∀ k, i <= k < len ws -> ¬ sentence_final ws k) ∧ r = len ws - 1).

(** The sequence of the worked example. *)
Definition fox_sequence : list jsstring :=
  [js "A"; js "quick."; js "brown"; js "fox"; js "jumped."].

(** The position after a run of actions on a fresh engine. *)
Definition position_after (acts : list Action) : option Z :=
  option_map (fun r => currentIndex (fst r)) (execs acts constructor).

(** ** Clamping *)

(** The nearest value within [lo, hi]. *)
Definition clamp (x lo hi : Z) : Z :=
  if x <? lo then lo else if hi <? x then hi else x.

(** ** Event system *)

(** The callbacks registered under a channel, in registration order. *)
Definition registrations (s : Engine) (event : string) : list callback :=
  default [] (_listeners s !! event).

(** The number of times a trace calls [cb]. *)
Definition calls_to (cb : callback) (t : Trace) : nat :=
  length (List.filter (fun c => match c with Call cb' _ _ => Nat.eqb cb' cb end) t).

(** The play/pause status and the timer bookkeeping of [s2] are those of
    [s1]. *)
Definition same_status (s1 s2 : Engine) : Prop :=
  isPlaying s2 = isPlaying s1 ∧ isPaused s2 = isPaused s1
  ∧ timerId s2 = timerId s1 ∧ scheduled s2 = scheduled s1.

(** Whether the call behind an action ends by throwing. *)
Definition signals_error (a : Action) (s : Engine) : bool :=
  match a with
  | ALoad ws i => throws (load ws i) s
  | APlay => throws play s
  | APause => throws pause s
  | ATogglePlay => throws togglePlay s
  | ARewind c => throws (rewind c) s
  | ASkip c => throws (skip c) s
  | AJumpTo i => throws (jumpTo i) s
  | ASetSpeed r => throws (setSpeed r) s
  | ASetChunkSize c => throws (setChunkSize c) s
  | AStop => throws stop s
  | AGetProgress => throws getProgress s
  | AOn e cb => throws (on e cb) s
  | AOff e cb => throws (off e cb) s
  | AFire id => throws (fire id) s
  end.

(** The event an action subscribes to or unsubscribes from, if any, is not
    the name of a member of [Object.prototype]. *)
Definition ordinary_event (a : Action) : Prop :=
  match a with
  | AOn e _ | AOff e _ => inherited e = false
  | _ => True
  end.

(** The channels the engine emits on. *)
Definition channels : list string :=
  ["load"; "play"; "pause"; "stop"; "end"; "word"; "progress";
   "speedChange"]%string.

(** [on] and [off] are the only methods that manage subscriptions. *)
Definition manages_listeners (a : Action) : bool :=
  match a with
  | AOn _ _ | AOff _ _ => true
  | _ => false
  end.

(** The filter of [off]: every callback other than [cb]. *)
Definition without (cb : callback) (cbs : list callback) : list callback :=
  List.filter (fun c => negb (Nat.eqb c cb)) cbs.

(** ** Position invariant *)

(** The calls the position arithmetic is written for: an explicit count or
    start index is non-negative, and [load] and [skip] work on a sequence
    that is not empty. *)
Definition within_design (s : Engine) (a : Action) : Prop :=
  match a with
  | ALoad ws i => ws ≠ [] ∧ 0 <= default 0 i
  | ASkip c => words s ≠ [] ∧ 0 <= default 0 c
  | ARewind c => 0 <= default 0 c
  | _ => True
  end.

(** The position is at least 0 and exceeds the length by at most 2, the
    largest chunk size less one. *)
Definition position_inv (s : Engine) : Prop :=
  0 <= currentIndex s <= len (words s) + 2 ∧ 1 <= chunkSize s <= 3.

(** The engine two autoplay steps into the worked example at chunk size 3:
    [load(seq, 0); setChunkSize(3); play()], then the first timer fires. *)
Definition tail_state : Engine :=
  state_after (fire 1%positive)
    (state_after play
       (state_after (setChunkSize 3)
          (state_after (load fox_sequence (Some 0)) constructor))).

(** ** Outstanding steps *)

(** [play()] is called only while the engine is not playing, which is how
    [togglePlay()] uses it. *)
Definition play_when_idle (s : Engine) (a : Action) : Prop :=
  match a with
  | APlay => isPlaying s = false
  | _ => True
  end.

(** Either no step is outstanding, or the engine is playing and the one
    outstanding step is the one whose handle it holds. *)
Definition timer_inv (s : Engine) : Prop :=
  outstanding s = []
  ∨ (isPlaying s = true ∧ ∃ id, outstanding s = [id] ∧ timerId s = Some id).

(** No step is outstanding, so the host has no step of this engine to run. *)
Definition no_step_pending (s : Engine) : Prop :=
  outstanding s = [] ∧ ∀ id, exec (AFire id) s = None.

(** The handles outstanding after a run of actions on a fresh engine. *)
Definition outstanding_after (acts : list Action) : option (list handle) :=
  option_map (fun r => outstanding (fst r)) (execs acts constructor).

(** The engine right after [load(...)] and [play()] on the worked example. *)
Definition playing_fox : Engine :=
  state_after play (state_after (load fox_sequence None) constructor).

(** ** Loading *)

(** The start index clamped into [0, length - 1], or 0 for an empty
    sequence. *)
Definition resolved_start (ws : list jsstring) (startIndex : Z) : Z :=
  if len ws =? 0 then 0 else clamp startIndex 0 (len ws - 1).

(** ** Progress formatting *)

(** min(100, 100 × current/total), or 0 when total is 0. *)
Definition percent_of (current total : Z) : Number.t :=
  if total =? 0 then Number.of_Z 0
  else Math.min (Number.of_Z 100)
         (Number.mul (Number.of_Z 100)
            (Number.div (Number.of_Z current) (Number.of_Z total))).

(** The remaining time in minutes, formatted. *)
Definition time_text (minutes : Number.t) : jsstring :=
  if Number.ltb minutes (Number.of_Z 1) then js "< 1 min"
  else if Number.ltb minutes (Number.of_Z 60) then
    Number_toString (Math.ceil minutes) ++ js " min"
  else
    Number_toString (Math.floor (Number.div minutes (Number.of_Z 60)))
    ++ js "h "
    ++ Number_toString (Math.ceil (Number.rem minutes (Number.of_Z 60)))
    ++ js "m".

(** The progress record the specification describes. *)
Definition progress_of (s : Engine) : Progress :=
  let total := len (words s) in
  let remaining := Z.max 0 (total - currentIndex s) in
  {| current := currentIndex s;
     total := total;
     percent := percent_of (currentIndex s) total;
     wordsRemaining := remaining;
     timeRemaining :=
       time_text (Number.div (Number.of_Z remaining) (Number.of_Z (wpm s))) |}.

(** The calls whose explicit count or start index is not negative. *)
Definition no_negative_argument (s : Engine) (a : Action) : Prop :=
  match a with
  | ALoad _ i => 0 <= default 0 i
  | ARewind c | ASkip c => 0 <= default 0 c
  | _ => True
  end.

(** With an empty sequence the engine is not playing and the position is
    0 or -1. *)
Definition empty_inv (s : Engine) : Prop :=
  words s = [] -> isPlaying s = false ∧ -1 <= currentIndex s <= 0.

(** No restriction on the calls. *)
Definition any_call (s : Engine) (a : Action) : Prop := True.

(** The stored rate lies within [50, 1500]. *)
Definition rate_inv (s : Engine) : Prop := 50 <= wpm s <= 1500.

(* ===================================================================== *)
(** * Proof automation                                                    *)
(* ===================================================================== *)

(** Runs a method body symbolically: the monad and the field updates are
    unfolded, conditionals are left for the proof to split. *)
Ltac run_method :=
  unfold throws, state_after, trace_of, result_of,
    load, play, pause, togglePlay, rewind, skip, jumpTo, setSpeed, setChunkSize,
    stop, getProgress, on, off, fire, _tick, _emitCurrentWord, _clearTimer,
    _emit, forEach_call, listeners_at, setTimeout, clearTimeout, outstanding,
    bind, ret, throw, get, modify,
    set_words, set_currentIndex, set_isPlaying, set_isPaused, set_timerId,
    set_wpm, set_chunkSize, set_listeners, set_scheduled, set_nextHandle;
  change (inherited "load") with false;
  change (inherited "play") with false;
  change (inherited "pause") with false;
  change (inherited "stop") with false;
  change (inherited "end") with false;
  change (inherited "word") with false;
  change (inherited "progress") with false;
  change (inherited "speedChange") with false;
  cbn [words currentIndex isPlaying isPaused timerId wpm chunkSize _listeners
       scheduled nextHandle fst snd].

(** Splits every conditional in the goal, outermost first, reducing the
    field reads each split exposes and reusing the cases already made. *)
Ltac split_ifs :=
  repeat first
    [ progress cbn [words currentIndex isPlaying isPaused timerId wpm chunkSize
                    _listeners scheduled nextHandle fst snd]
    | match goal with
      | H : _listeners ?s !! ?e = _ |- context [_listeners ?s !! ?e] =>
          rewrite H
      | H : ?b = _ |- context [if ?b then _ else _] => rewrite H
      | |- context [_listeners ?s !! ?e] => destruct (_listeners s !! e) eqn:?
      | |- context [if ?b then _ else _] =>
          match type of b with bool => destruct b eqn:? end
      | |- context [match ?o with Some _ => _ | None => _ end] =>
          destruct o eqn:?
      end ].

(** Turns boolean comparisons in the context into propositions. *)
Ltac prop_of_bool :=
  repeat match goal with
         | H : (_ || _) = false |- _ => apply orb_false_iff in H as [? ?]
         | H : negb _ = false |- _ => apply negb_false_iff in H
         | H : negb _ = true |- _ => apply negb_true_iff in H
         | H : (_ >=? _) = true |- _ => apply Z.geb_le in H
         | H : (_ >=? _) = false |- _ => rewrite Z.geb_leb in H; apply Z.leb_gt in H
         | H : (_ <? _) = true |- _ => apply Z.ltb_lt in H
         | H : (_ <? _) = false |- _ => apply Z.ltb_ge in H
         | H : (_ =? _) = true |- _ => apply Z.eqb_eq in H
         | H : (_ =? _) = false |- _ => apply Z.eqb_neq in H
         | H : bool_decide _ = true |- _ => apply bool_decide_eq_true in H
         | H : bool_decide _ = false |- _ => apply bool_decide_eq_false in H
         end.


(* ===================================================================== *)
(** * Further properties: definitions                                      *)
(* ===================================================================== *)

(** ** Status and configuration invariants *)

(** The playing and the paused flag are never both set. *)
Definition flags_inv (s : Engine) : Prop :=
  isPlaying s && isPaused s = false.

(** While the engine is playing, the step whose handle it holds is queued. *)
Definition held_step_inv (s : Engine) : Prop :=
  isPlaying s = true -> ∃ id, timerId s = Some id ∧ id ∈ outstanding s.

(** Rate and chunk size lie within their ranges. *)
Definition config_inv (s : Engine) : Prop :=
  50 <= wpm s <= 1500 ∧ 1 <= chunkSize s <= 3.

(** ** Range of the delay *)

(** The values each part of the modifier can take. *)
Definition lengthFactors : list Number.t := [lit_0_8; lit_1_0; lit_1_2].
Definition punctuationBonuses : list Number.t :=
  [Number.of_Z 0; lit_0_3; lit_0_6; lit_1_0].
Definition paragraphBonuses : list Number.t := [Number.of_Z 0; lit_1_5].

(** The delay for a base delay and given modifier parts. *)
Definition delay_from (base L b P : Number.t) : Number.t :=
  Math.round (Number.mul base (Number.add (Number.add L b) P)).

(** The base delay at rate [r]: 60000 / r. *)
Definition base_delay (r : Z) : Number.t :=
  Number.div (Number.of_Z 60000) (Number.of_Z r).

(** The rates [50 .. 1500]. *)
Definition rates : list Z := map Z.of_nat (seq 50 1451).

(** The integer [Math.round] yields on a positive number with binary digits
    after the point; [None] on any other number. *)
Definition round_Z (x : Number.t) : option Z :=
  match x with
  | S754_finite false m (Zneg p) =>
      Some (Z.shiftr (2 * Zpos m + 2 ^ Zpos p) (Zpos p + 1))
  | _ => None
  end.

(** The punctuation bonuses below the sentence pause. *)
Definition minorBonuses : list Number.t := [Number.of_Z 0; lit_0_3; lit_0_6].

(** For each length factor and paragraph bonus: the modifier with the
    sentence pause, and the modifiers with the other punctuation bonuses. *)
Definition modifier_rows : list (Number.t * list Number.t) :=
  flat_map (fun L =>
    map (fun P =>
      (Number.add (Number.add L lit_1_0) P,
       map (fun b => Number.add (Number.add L b) P) minorBonuses))
      paragraphBonuses)
    lengthFactors.

(** At base delay [base], the delay with the sentence pause is a whole
    number within [lo, hi], and every other delay of the row is a whole
    number between [lo] and it. *)
Definition row_ok (lo hi : Z) (base : Number.t)
    (row : Number.t * list Number.t) : bool :=
  match round_Z (Number.mul base (fst row)) with
  | Some top =>
      (lo <=? top) && (top <=? hi)
      && forallb (fun m =>
           match round_Z (Number.mul base m) with
           | Some n => (lo <=? n) && (n <=? top)
           | None => false
           end) (snd row)
  | None => false
  end.

(** [row_ok] for every rate of [rs] and every row. *)
Definition delays_ok (lo hi : Z) (rs : list Z) : bool :=
  let rows := modifier_rows in
  forallb (fun r => let base := base_delay r in forallb (row_ok lo hi base) rows)
          rs.

(** ** Autoplay *)

(** The next [c] words from position [i] (fewer at the tail), joined by
    single spaces. *)
Definition chunk_text (ws : list jsstring) (c i : Z) : jsstring :=
  join (map Some (take (Z.to_nat c) (drop (Z.to_nat i) ws))).

(** The listener calls made when the given events are emitted in order. *)
Definition deliver (s : Engine) (events : list (string * Payload))
  : list Invocation :=
  flat_map (fun ev => map (fun cb => Call cb (fst ev) (snd ev))
                          (registrations s (fst ev)))
           events.

(** The progress record at position [i] of [ws] at rate [r]. *)
Definition progress_at (ws : list jsstring) (r i : Z) : Progress :=
  _progressData (set_currentIndex i (set_wpm r (set_words ws constructor))).

(** The two events of the [k]-th autoplay step at chunk size [c]. *)
Definition chunk_events (ws : list jsstring) (c r : Z) (k : nat)
  : list (string * Payload) :=
  let i := Z.of_nat k * c in
  [("word"%string,
    WordData (chunk_text ws c i) i (splitAtORP (chunk_text ws c i)));
   ("progress"%string, ProgressData (progress_at ws r i))].

(** A whole playback in [n] steps: play, the chunks in order, end. *)
Definition playback_events (ws : list jsstring) (c r : Z) (n : nat)
  : list (string * Payload) :=
  ("play"%string, Undefined)
  :: flat_map (chunk_events ws c r) (seq 0 n)
  ++ [("end"%string, Undefined)].

(** The host lets the engine's own timer fire, [fuel] times at most: each
    time the step whose handle the engine holds is run, if it is queued. *)
Fixpoint autoplay (fuel : nat) (s : Engine) : Engine * list Invocation :=
  match fuel with
  | O => (s, [])
  | S fuel' =>
      match timerId s with
      | Some id =>
          match exec (AFire id) s with
          | Some (s1, t1) =>
              let '(s2, t2) := autoplay fuel' s1 in (s2, t1 ++ t2)
          | None => (s, [])
          end
      | None => (s, [])
      end
  end.

(** The state of a playback of [ws] that has shown [k] chunks: playing, at
    position [k * c], with exactly the held step queued. *)
Definition mid_playback (s0 : Engine) (ws : list jsstring) (k : nat)
           (s : Engine) : Prop :=
  words s = ws ∧ chunkSize s = chunkSize s0 ∧ wpm s = wpm s0
  ∧ _listeners s = _listeners s0 ∧ isPlaying s = true
  ∧ currentIndex s = Z.of_nat k * chunkSize s0
  ∧ ∃ id d, scheduled s = [(id, d)] ∧ timerId s = Some id.

(** ** Tokenizer ([FileParser._tokenize], the producer of the word
    sequence handed to [load]) *)

(** The class [\s] of a regular expression: the white space and line
    terminator code units. *)
Definition is_space (c : N) : bool :=
  (in_range 9 13 c || N.eqb c 32 || N.eqb c 160 || N.eqb c 5760
   || in_range 8192 8202 c || N.eqb c 8232 || N.eqb c 8233 || N.eqb c 8239
   || N.eqb c 8287 || N.eqb c 12288 || N.eqb c 65279)%N.

(** [text.replace(/\r\n/g, '\n')] *)
Fixpoint replace_crlf (text : list N) : list N :=
  match text with
  | [] => []
  | c :: rest =>
      match rest with
      | c' :: rest' =>
          if N.eqb c 13 && N.eqb c' 10 then 10%N :: replace_crlf rest'
          else c :: replace_crlf rest
      | [] => [c]
      end
  end.

(** [text.split(/\s+/)]: the pieces between maximal runs of white space,
    including an empty first or last piece when the text starts or ends with
    white space.  [piece] is the piece being read and [in_gap] tells that
    the previous character was white space. *)
Fixpoint split_from (piece : list N) (in_gap : bool) (text : list N)
  : list (list N) :=
  match text with
  | [] => [piece]
  | c :: rest =>
      if is_space c then
        if in_gap then split_from [] true rest
        else piece :: split_from [] true rest
      else split_from (piece ++ [c]) false rest
  end.

Definition split_spaces (text : list N) : list (list N) :=
  split_from [] false text.

(** [_tokenize(text)] *)
Definition _tokenize (text : list N) : list (list N) :=
  List.filter (fun w => len w >? 0) (split_spaces (replace_crlf text)).

(** A word as the tokenizer produces them: not empty, no white space. *)
Definition solid_word (w : list N) : Prop :=
  w ≠ [] ∧ Forall (fun c => is_space c = false) w.
(* ===================================================================== *)
(** * The state each method leaves behind                                  *)
(* ===================================================================== *)

Lemma emit_state (event : string) (data : Payload) (s : Engine) :
  state_after (_emit event data) s = s.
Proof. run_method. split_ifs; reflexivity. Qed.

Lemma emitCurrentWord_state (s : Engine) :
  state_after _emitCurrentWord s = s.
Proof. run_method. split_ifs; reflexivity. Qed.

Lemma clearTimer_state (s : Engine) :
  state_after _clearTimer s =
  match timerId s with
  | Some id =>
      set_timerId None
        (set_scheduled
           (List.filter (fun e => negb (Pos.eqb (fst e) id)) (scheduled s)) s)
  | None => s
  end.
Proof. run_method. split_ifs; reflexivity. Qed.

Lemma rewind_state (count : option Z) (s : Engine) :
  state_after (rewind count) s =
  set_currentIndex
    match count with
    | Some n => Z.max 0 (currentIndex s - n)
    | None => _findSentenceStart s (currentIndex s)
    end s.
Proof. run_method. destruct count; cbn; split_ifs; reflexivity. Qed.

Lemma skip_state (count : option Z) (s : Engine) :
  state_after (skip count) s =
  set_currentIndex
    match count with
    | Some n => Z.min (len (words s) - 1) (currentIndex s + n)
    | None => _findSentenceEnd s (currentIndex s)
    end s.
Proof. run_method. destruct count; cbn; split_ifs; reflexivity. Qed.

Lemma jumpTo_state (index : Z) (s : Engine) :
  state_after (jumpTo index) s =
  set_currentIndex (Z.max 0 (Z.min index (len (words s) - 1))) s.
Proof. run_method. split_ifs; reflexivity. Qed.

Lemma setSpeed_state (rate : Z) (s : Engine) :
  state_after (setSpeed rate) s = set_wpm (Z.max 50 (Z.min 1500 rate)) s.
Proof. run_method. split_ifs; reflexivity. Qed.

Lemma setChunkSize_state (size : Z) (s : Engine) :
  state_after (setChunkSize size) s = set_chunkSize (Z.max 1 (Z.min 3 size)) s.
Proof. reflexivity. Qed.

Lemma stop_state (s : Engine) :
  state_after stop s =
  state_after _clearTimer (set_isPaused false (set_isPlaying false s)).
Proof. run_method. split_ifs; reflexivity. Qed.

Lemma pause_state (s : Engine) :
  state_after pause s =
  state_after _clearTimer (set_isPaused true (set_isPlaying false s)).
Proof. run_method. split_ifs; reflexivity. Qed.

Lemma load_state (ws : list jsstring) (startIndex : option Z) (s : Engine) :
  state_after (load ws startIndex) s =
  state_after _clearTimer
    (set_isPaused false
       (set_isPlaying false
          (set_currentIndex (Z.min (default 0 startIndex) (len ws - 1))
             (set_words ws s)))).
Proof. run_method. split_ifs; reflexivity. Qed.

Lemma tick_state (s : Engine) :
  state_after _tick s =
  if negb (isPlaying s) || (currentIndex s >=? len (words s)) then
    if currentIndex s >=? len (words s) then set_isPlaying false s else s
  else
    set_timerId (Some (nextHandle s))
      (set_nextHandle (Pos.succ (nextHandle s))
         (set_scheduled
            (scheduled s ++ [(nextHandle s, _calculateDelay s (displayWord s))])
            (set_currentIndex (currentIndex s + chunkSize s) s))).
Proof. run_method. split_ifs; reflexivity. Qed.

Lemma play_state (s : Engine) :
  state_after play s =
  if len (words s) =? 0 then s
  else
    state_after _tick
      (set_isPaused false
         (set_isPlaying true
            (if currentIndex s >=? len (words s)
             then set_currentIndex 0 s else s))).
Proof. run_method. split_ifs; reflexivity. Qed.

Lemma togglePlay_state (s : Engine) :
  state_after togglePlay s =
  if isPlaying s then state_after pause s else state_after play s.
Proof.
  unfold state_after, togglePlay, bind, get. destruct (isPlaying s).
  - destruct (pause s) as [[? ?] ?]. reflexivity.
  - destruct (play s) as [[? ?] ?]. reflexivity.
Qed.

Lemma fire_state (id : handle) (s : Engine) :
  state_after (fire id) s =
  state_after _tick
    (set_scheduled
       (List.filter (fun e => negb (Pos.eqb (fst e) id)) (scheduled s)) s).
Proof. run_method. split_ifs; reflexivity. Qed.

Lemma getProgress_state (s : Engine) : state_after getProgress s = s.
Proof. reflexivity. Qed.

(* ===================================================================== *)
(** * Timing model: the delay formula                                      *)
(* ===================================================================== *)

Section Timing.

Lemma existsb_eqb_elem (c : N) (xs : list N) :
  existsb (N.eqb c) xs = bool_decide (c ∈ xs).
Proof.
  induction xs as [|x xs IH]; cbn [existsb].
  - symmetry. apply bool_decide_eq_false. apply not_elem_of_nil.
  - rewrite IH. destruct (N.eqb_spec c x) as [->|Hne]; cbn [orb].
    + symmetry. apply bool_decide_eq_true. apply elem_of_cons. by left.
    + apply bool_decide_ext. rewrite elem_of_cons. intuition congruence.
Qed.

Lemma at_index_last {A} (l : list A) : at_index l (len l - 1) = last l.
Proof.
  unfold at_index, len. destruct l as [|a l].
  - reflexivity.
  - replace (Z.of_nat (length (a :: l)) - 1 <? 0) with false
      by (symmetry; apply Z.ltb_ge; cbn [length]; lia).
    rewrite last_lookup. f_equal. cbn [length]. lia.
Qed.

Lemma includes_elem (xs : list jschar) (x : option jschar) :
  includes xs x = match x with Some c => bool_decide (c ∈ xs) | None => false end.
Proof. destruct x; [apply existsb_eqb_elem | reflexivity]. Qed.

Lemma closingPunct_elem (c : jschar) :
  bool_decide (c ∈ closingPunct) = bool_decide (c ∈ [34%N; ch "'"; ch ")"]).
Proof.
  apply bool_decide_ext. unfold closingPunct.
  rewrite !elem_of_cons. tauto.
Qed.

Lemma paragraph_test (w : jsstring) :
  str_includes w newline || str_includes w pilcrow
  = bool_decide (newline ∈ w ∨ pilcrow ∈ w).
Proof.
  unfold str_includes. rewrite !existsb_eqb_elem.
  destruct (decide (newline ∈ w)) as [H1|H1], (decide (pilcrow ∈ w)) as [H2|H2];
    rewrite ?(bool_decide_eq_true_2 _ H1), ?(bool_decide_eq_false_2 _ H1),
            ?(bool_decide_eq_true_2 _ H2), ?(bool_decide_eq_false_2 _ H2);
    cbn [orb]; symmetry;
    first [ apply bool_decide_eq_true; tauto
          | apply bool_decide_eq_false; tauto ].
Qed.

Lemma calculateDelay_unfold (s : Engine) (w : jsstring) :
  _calculateDelay s w = delay_formula w (wpm s).
Proof.
  unfold _calculateDelay, delay_formula, modifier_of, lengthFactor,
    punctuationBonus, paragraphBonus, strippedLength.
  f_equal. f_equal.
  rewrite at_index_last, !includes_elem, paragraph_test, Z.geb_leb.
  destruct (len (List.filter is_alnum w) <=? 3);
    [| destruct (8 <=? len (List.filter is_alnum w))];
    (destruct (last w) as [c|];
     [ rewrite closingPunct_elem;
       destruct (bool_decide (c ∈ sentencePunct)) eqn:E1;
       unfold sentencePunct in E1; rewrite E1;
       [| destruct (bool_decide (c ∈ clausePunct)) eqn:E2;
          unfold clausePunct in E2; rewrite E2;
          [| destruct (bool_decide (c ∈ [34%N; ch "'"; ch ")"]))] ]
     | ]);
    destruct (bool_decide (newline ∈ w ∨ pilcrow ∈ w)); reflexivity.
Qed.

End Timing.

(** C1. For every chunk string [w] and every stored rate, the step delay is
    round((60000 / rate) × modifier), where the modifier is the length factor
    of the alphanumeric-stripped length (0.8 up to 3, 1.2 from 8, else 1.0)
    plus the bonus of the raw last character (+1.0 for . ! ?, +0.6 for , ; :,
    +0.3 for a closing quote or parenthesis, nothing otherwise) plus 1.5 when
    [w] holds a newline or a pilcrow; "cat." at rate 300 takes 360 ms and
    "word" at rate 300 takes 200 ms.  The arithmetic is the program's
    (binary64). *)
Theorem calculateDelay_formula (s : Engine) (w : jsstring) :
  _calculateDelay s w = delay_formula w (wpm s)
  ∧ _calculateDelay (set_wpm 300 s) (js "cat.") = Number.of_Z 360
  ∧ _calculateDelay (set_wpm 300 s) (js "word") = Number.of_Z 200.
Proof.
  split; [apply calculateDelay_unfold |].
  split; vm_compute; reflexivity.
Qed.

(* ===================================================================== *)
(** * ORP model: the split                                                 *)
(* ===================================================================== *)

Lemma binary_round_aux_not_negative mx ex lx :
  not_negative (binary_round_aux Number.prec Number.emax false mx ex lx).
Proof.
  unfold binary_round_aux.
  destruct (shr_fexp _ _ mx ex lx) as [mrs' e'].
  destruct (shr_fexp _ _ _ e' loc_Exact) as [mrs'' e''].
  destruct (shr_m mrs''); [exact I | | exact I].
  destruct (Z.leb e'' _); exact I.
Qed.

Lemma of_Z_not_negative (n : Z) : 0 <= n -> not_negative (Number.of_Z n).
Proof.
  intros Hn. unfold Number.of_Z, binary_normalize.
  destruct n as [|p|p]; [exact I | | lia].
  unfold binary_round.
  destruct (shl_align _ _ _) as [mz ez].
  apply binary_round_aux_not_negative.
Qed.

Lemma mul_not_negative (x y : Number.t) :
  not_negative x -> not_negative y -> not_negative (Number.mul x y).
Proof.
  destruct x as [[]|[]| |[] mx ex], y as [[]|[]| |[] my ey];
    cbn; try tauto; intros _ _.
  apply binary_round_aux_not_negative.
Qed.

Lemma floor_to_Z_nonneg (x : Number.t) :
  not_negative x -> 0 <= Number.to_Z (Math.floor x).
Proof.
  destruct x as [s|s| |s m e]; cbn [Math.floor Number.to_Z]; try lia.
  destruct s; [intros [] | intros _].
  destruct e as [|p|p]; cbn [Number.to_Z Number.mant cond_Zopp]; try lia.
  assert (Hq : 0 <= Z.pos m / 2 ^ Z.pos p) by (apply Z.div_pos; lia).
  pose proof (of_Z_not_negative _ Hq) as Hnn.
  unfold Number.of_Z in Hnn.
  replace (binary_normalize Number.prec Number.emax (Z.pos m / 2 ^ Z.pos p) 0 false)
    with (Number.of_Z (Z.pos m / 2 ^ Z.pos p)) by reflexivity.
  destruct (Number.of_Z (Z.pos m / 2 ^ Z.pos p)) as [s'|s'| |s' m' e'] eqn:E;
    cbn [Number.to_Z]; try lia.
  unfold Number.of_Z in E. rewrite E in Hnn. destruct s'; [destruct Hnn |].
  cbn [Number.mant cond_Zopp].
  destruct e' as [|q|q]; [lia | lia |].
  apply Z.quot_pos; lia.
Qed.

Lemma orpIndex_of_nonneg (n : Z) : 0 <= orpIndex_of n.
Proof.
  unfold orpIndex_of.
  destruct (Z.leb_spec n 2); [lia |].
  destruct (Z.eqb_spec n 3); [lia |].
  apply floor_to_Z_nonneg, mul_not_negative.
  - apply of_Z_not_negative. lia.
  - exact I.
Qed.

Lemma calculateORP_cases (w : jsstring) :
  calculateORP w = orpIndex_of (cleanLength w).
Proof.
  unfold calculateORP, orpIndex_of, cleanLength.
  set (n := len (List.filter is_orp_char w)).
  assert (0 <= n) by (unfold n, len; lia).
  destruct (Z.leb_spec n 0), (Z.eqb_spec n 1), (Z.eqb_spec n 2),
    (Z.leb_spec n 2), (Z.eqb_spec n 3); try lia; reflexivity.
Qed.

Lemma substring_prefix (w : jsstring) (i : Z) :
  0 <= i -> substring w 0 (Some i) = take (Z.to_nat i) w.
Proof.
  intros Hi. cbv beta iota zeta delta [substring].
  set (a := Z.min (Z.max 0 0) (len w)).
  set (b := Z.min (Z.max i 0) (len w)).
  assert (HL : 0 <= len w) by (unfold len; lia).
  assert (E1 : Z.min a b = 0) by lia.
  assert (E2 : Z.max a b = Z.min i (len w)) by lia.
  rewrite E1, E2, Z.sub_0_r. change (Z.to_nat 0) with 0%nat. rewrite drop_0.
  destruct (Z.le_gt_cases i (len w)).
  - rewrite Z.min_l by lia. reflexivity.
  - rewrite Z.min_r by lia. unfold len in *. rewrite Nat2Z.id.
    rewrite !take_ge by lia. reflexivity.
Qed.

Lemma substring_suffix (w : jsstring) (i : Z) :
  0 <= i -> substring w i None = drop (Z.to_nat i) w.
Proof.
  intros Hi. cbv beta iota zeta delta [substring].
  set (a := Z.min (Z.max i 0) (len w)).
  assert (HL : 0 <= len w) by (unfold len; lia).
  assert (E1 : Z.min a (len w) = Z.min i (len w)) by lia.
  assert (E2 : Z.max a (len w) = len w) by lia.
  rewrite E1, E2.
  destruct (Z.le_gt_cases i (len w)).
  - rewrite Z.min_l by lia.
    apply take_ge. rewrite length_drop. unfold len in *. lia.
  - rewrite Z.min_r by lia. rewrite Z.sub_diag. unfold len in *.
    rewrite Nat2Z.id. change (Z.to_nat 0) with 0%nat.
    rewrite !drop_ge by lia. reflexivity.
Qed.

Lemma at_index_nonneg {A} (l : list A) (i : Z) :
  0 <= i -> at_index l i = l !! Z.to_nat i.
Proof.
  intros Hi. unfold at_index.
  destruct (Z.ltb_spec i 0); [lia | reflexivity].
Qed.

(** C2. For every word [w], [splitAtORP] strips the characters outside
    [A-Za-z0-9À-ÿ'-] to get the clean length, takes index 0 for a clean
    length up to 2, 1 for 3 and floor(len × 0.35) from 4 on, and splits the
    original string there: [before] is the prefix of that many characters,
    the ORP character is the character at the index (empty when the index is
    out of bounds) and [after] is what follows it.  "it" has index 0, "the"
    has index 1 and "elephant" has index 2. *)
Theorem splitAtORP_cases (w : jsstring) :
  splitAtORP w = split_at w (orpIndex_of (cleanLength w))
  ∧ 0 <= orpIndex_of (cleanLength w)
  ∧ orpIndex (splitAtORP (js "it")) = 0
  ∧ orpIndex (splitAtORP (js "the")) = 1
  ∧ orpIndex (splitAtORP (js "elephant")) = 2.
Proof.
  pose proof (orpIndex_of_nonneg (cleanLength w)) as Hnn.
  split; [| split; [exact Hnn | repeat split; vm_compute; reflexivity]].
  unfold splitAtORP, split_at. rewrite calculateORP_cases.
  rewrite substring_prefix, substring_suffix, at_index_nonneg by lia.
  reflexivity.
Qed.

(** Below a clean length of 180 the binary64 product agrees with exact
    arithmetic: the index is the integer part of 35% of the length. *)
Lemma orpIndex_exact_below_180 (n : Z) :
  4 <= n < 180 -> orpIndex_of n = 35 * n / 100.
Proof.
  intros Hn.
  assert (Hall : forallb (fun k => orpIndex_of (Z.of_nat k) =? 35 * Z.of_nat k / 100)
                   (seq 4 176) = true) by (vm_compute; reflexivity).
  rewrite forallb_forall in Hall.
  specialize (Hall (Z.to_nat n)).
  rewrite Z2Nat.id in Hall by lia.
  apply Z.eqb_eq, Hall, in_seq. lia.
Qed.

(** At 180 the product 180 × 0.35 falls just below 63 in binary64. *)
Lemma orpIndex_at_180 : orpIndex_of 180 = 62.
Proof. vm_compute. reflexivity. Qed.

(* ===================================================================== *)
(** * Sentence boundary search                                             *)
(* ===================================================================== *)

Lemma sentence_end_final (ws : list jsstring) (k : Z) :
  sentence_end (at_index ws k) = true <-> sentence_final ws k.
Proof.
  unfold sentence_end, sentence_final, ends_sentence.
  destruct (at_index ws k) as [w|]; [| split; [discriminate | intros (?&?&?&_); discriminate]].
  split.
  - intros H. apply andb_true_iff in H as [_ H].
    destruct (last w) as [c|] eqn:El; [| discriminate].
    exists w, c. rewrite existsb_eqb_elem in H.
    apply bool_decide_eq_true in H.
    split; [reflexivity | split; [exact El | exact H]].
  - intros (w' & c & Hw & Hl & Hc). injection Hw as <-.
    rewrite Hl, existsb_eqb_elem.
    apply andb_true_iff. split.
    + apply negb_true_iff, bool_decide_eq_false. intros ->. discriminate.
    + apply bool_decide_eq_true. exact Hc.
Qed.

Lemma sentence_end_not_final (ws : list jsstring) (k : Z) :
  sentence_end (at_index ws k) = false <-> ¬ sentence_final ws k.
Proof.
  rewrite <- sentence_end_final. destruct (sentence_end _); intuition congruence.
Qed.

Lemma at_index_of_nat {A} (l : list A) (i : nat) :
  at_index l (Z.of_nat i) = l !! i.
Proof. rewrite at_index_nonneg by lia. f_equal. lia. Qed.

Lemma sentenceStartFrom_spec (ws : list jsstring) (k : nat) :
  sentence_start_of ws (Z.of_nat k) (sentenceStartFrom ws k).
Proof.
  induction k as [|i IH]; cbn [sentenceStartFrom].
  - right. split; [intros; lia | reflexivity].
  - rewrite <- at_index_of_nat.
    destruct (sentence_end (at_index ws (Z.of_nat i))) eqn:E.
    + apply sentence_end_final in E. left. exists (Z.of_nat i).
      split; [lia |]. split; [exact E |]. split; [intros; lia | reflexivity].
    + apply sentence_end_not_final in E.
      assert (Hstep : ∀ k, k = Z.of_nat i ∨ k < Z.of_nat i ∨ Z.of_nat (S i) <= k)
        by (intros; lia).
      destruct IH as [(j & Hj & Hf & Hnone & Hr) | [Hnone Hr]].
      * left. exists j. split; [lia |]. split; [exact Hf |].
        split; [| exact Hr].
        intros k Hk. destruct (Hstep k) as [-> | [? | ?]];
          [exact E | apply Hnone; lia | lia].
      * right. split; [| exact Hr].
        intros k Hk. destruct (Hstep k) as [-> | [? | ?]];
          [exact E | apply Hnone; lia | lia].
Qed.

Lemma findSentenceStart_spec (s : Engine) (i : Z) :
  sentence_start_of (words s) i (_findSentenceStart s i).
Proof.
  unfold _findSentenceStart.
  destruct (Z.le_gt_cases 0 i) as [Hi|Hi].
  - pose proof (sentenceStartFrom_spec (words s) (Z.to_nat i)) as H.
    rewrite Z2Nat.id in H by lia. exact H.
  - replace (Z.to_nat i) with 0%nat by lia. cbn [sentenceStartFrom].
    right. split; [intros; lia | reflexivity].
Qed.

Lemma sentenceEndFrom_spec (ws : list jsstring) (fuel : nat) (i : Z) :
  fuel = Z.to_nat (len ws - i) ->
  next_sentence_of ws i (sentenceEndFrom ws i fuel).
Proof.
  revert i. induction fuel as [|fuel IH]; intros i Hfuel; cbn [sentenceEndFrom].
  - right. split; [intros; lia | reflexivity].
  - destruct (sentence_end (at_index ws i)) eqn:E.
    + apply sentence_end_final in E. left. exists i.
      split; [lia |]. split; [exact E |]. split; [intros; lia | reflexivity].
    + apply sentence_end_not_final in E.
      assert (Hstep : ∀ k, k = i ∨ i + 1 <= k ∨ k < i) by (intros; lia).
      destruct (IH (i + 1)) as [(j & Hj & Hf & Hnone & Hr) | [Hnone Hr]]; [lia | |].
      * left. exists j. split; [lia |]. split; [exact Hf |].
        split; [| exact Hr].
        intros k Hk. destruct (Hstep k) as [-> | [? | ?]];
          [exact E | apply Hnone; lia | lia].
      * right. split; [| exact Hr].
        intros k Hk. destruct (Hstep k) as [-> | [? | ?]];
          [exact E | apply Hnone; lia | lia].
Qed.

Lemma findSentenceEnd_spec (s : Engine) (i : Z) :
  next_sentence_of (words s) i (_findSentenceEnd s i).
Proof. unfold _findSentenceEnd. apply sentenceEndFrom_spec. reflexivity. Qed.

(** C6. For every loaded sequence and position [i], [rewind()] moves to the
    position right after the first word, scanning backward from [i - 1],
    whose last character is . ! or ? (0 if there is none), and [skip()] to
    the position right after the first such word scanning forward from [i]
    inclusive, clamped to [length - 1] ([length - 1] if there is none).  With
    ["A"; "quick."; "brown"; "fox"; "jumped."], [skip()] from 0 lands at 2
    and [rewind()] from 4 lands at 2. *)
Theorem sentence_navigation (s : Engine) :
  sentence_start_of (words s) (currentIndex s)
    (currentIndex (state_after (rewind None) s))
  ∧ next_sentence_of (words s) (currentIndex s)
    (currentIndex (state_after (skip None) s))
  ∧ position_after [ALoad fox_sequence (Some 0); ASkip None] = Some 2
  ∧ position_after [ALoad fox_sequence (Some 4); ARewind None] = Some 2.
Proof.
  split; [| split; [| split; vm_compute; reflexivity]].
  - rewrite rewind_state. apply findSentenceStart_spec.
  - rewrite skip_state. apply findSentenceEnd_spec.
Qed.

(* ===================================================================== *)
(** * Errors and clamped inputs                                            *)
(* ===================================================================== *)

Lemma max_min_clamp (x lo hi : Z) :
  lo <= hi -> Z.max lo (Z.min hi x) = clamp x lo hi.
Proof.
  intros H. unfold clamp.
  destruct (Z.ltb_spec x lo), (Z.ltb_spec hi x); lia.
Qed.

(** Clamping, in every state: [setSpeed(r)] stores the nearest rate within
    [50, 1500], [setChunkSize(c)] the nearest size within
    [1, 3], [jumpTo(i)] the nearest position within [0, length - 1] (position
    0 when the sequence is empty and that interval has no element), and
    [play()] on an empty sequence returns having changed nothing and called
    no listener. *)
Lemma clamped_inputs (s : Engine) (r c i : Z) :
  wpm (state_after (setSpeed r) s) = clamp r 50 1500
  ∧ chunkSize (state_after (setChunkSize c) s) = clamp c 1 3
  ∧ currentIndex (state_after (jumpTo i) s)
    = (if len (words s) =? 0 then 0 else clamp i 0 (len (words s) - 1))
  ∧ play (set_words [] s) = (Returned tt, set_words [] s, []).
Proof.
  repeat split.
  - rewrite setSpeed_state. cbn. apply max_min_clamp. lia.
  - rewrite setChunkSize_state. cbn. apply max_min_clamp. lia.
  - rewrite jumpTo_state. cbn.
    assert (0 <= len (words s)) by (unfold len; lia).
    destruct (Z.eqb_spec (len (words s)) 0) as [E|E].
    + rewrite E. lia.
    + rewrite (Z.min_comm i). apply max_min_clamp. lia.
Qed.

(** The engine emits on its own channels only, and none of them is the
    name of a member of [Object.prototype]. *)
Lemma channels_ordinary : Forall (fun e => inherited e = false) channels.
Proof. repeat constructor. Qed.

(** With a name that no member of [Object.prototype] has, [on] appends the
    callback to the registrations of the event and returns the closure that
    runs [off], and [off] filters the callback out of the entry, if there is
    one. *)
Lemma on_returns (event : string) (cb : callback) (s : Engine) :
  inherited event = false ->
  on event cb s
  = (Returned (off event cb),
     set_listeners (<[event := registrations s event ++ [cb]]> (_listeners s)) s,
     []).
Proof.
  intros H. unfold registrations. run_method. rewrite H.
  destruct (_listeners s !! event) as [cbs|] eqn:E;
    cbn [_listeners fst snd default from_option id].
  - rewrite E. reflexivity.
  - rewrite lookup_insert_eq. cbn [fst snd app]. rewrite insert_insert_eq.
    reflexivity.
Qed.

Lemma off_returns (event : string) (cb : callback) (s : Engine) :
  inherited event = false ->
  off event cb s
  = (Returned tt,
     match _listeners s !! event with
     | Some cbs => set_listeners (<[event := without cb cbs]> (_listeners s)) s
     | None => s
     end,
     []).
Proof.
  intros H. unfold without. run_method. rewrite H.
  destruct (_listeners s !! event) as [cbs|] eqn:E; reflexivity.
Qed.

(** No call throws, in any state and for any argument, unless it is [on] or
    [off] with the name of a member of [Object.prototype]: the playback
    methods and the timer step emit on the engine's channels only. *)
Lemma no_error_on_ordinary_events (a : Action) (s : Engine) :
  ordinary_event a -> signals_error a s = false.
Proof.
  destruct a; cbn [ordinary_event signals_error]; intros H.
  12: { unfold throws, result_of. rewrite on_returns by exact H. reflexivity. }
  12: { unfold throws, result_of. rewrite off_returns by exact H. reflexivity. }
  all: do 2 run_method; try (destruct count); try (destruct startIndex);
    split_ifs; reflexivity.
Qed.

(** [on] and [off] with the name of a member of [Object.prototype] that the
    table has no entry of its own for throw a [TypeError] and change
    nothing. *)
Lemma prototype_event_throws (event : string) (cb : callback) (s : Engine) :
  inherited event = true -> _listeners s !! event = None ->
  on event cb s = (Thrown TypeError, s, [])
  ∧ off event cb s = (Thrown TypeError, s, []).
Proof.
  intros Hin Hnone. run_method.
  repeat (rewrite ?Hnone, ?Hin; cbn [fst snd _listeners]).
  split; reflexivity.
Qed.

(** [on] and [off] write no field other than the listener table. *)
Lemma on_off_frame (event : string) (cb : callback) (s : Engine) :
  (exists L, state_after (on event cb) s = set_listeners L s)
  ∧ (exists L, state_after (off event cb) s = set_listeners L s).
Proof.
  assert (Hs : s = set_listeners (_listeners s) s) by (destruct s; reflexivity).
  destruct (inherited event) eqn:Hin.
  - destruct (_listeners s !! event) as [cbs|] eqn:E.
    + split; eexists; run_method; rewrite ?E, ?Hin;
        cbn [fst snd _listeners]; rewrite ?E, ?lookup_insert_eq;
        reflexivity.
    + destruct (prototype_event_throws event cb s Hin E) as [Hon Hoff].
      unfold state_after. rewrite Hon, Hoff. split; eexists; exact Hs.
  - unfold state_after. rewrite on_returns, off_returns by exact Hin.
    split; [eexists; reflexivity |].
    destruct (_listeners s !! event); eexists; [reflexivity | exact Hs].
Qed.

(** C7. A public operation can signal an error: the listener table is a
    plain object, so [on("toString", cb)] on a fresh engine finds
    [Object.prototype.toString] under the event name, skips the
    initialisation and throws a [TypeError] at [push]; [off("valueOf", cb)]
    throws at [filter].  Nothing is registered. *)
Theorem prototype_event_name_throws :
  result_of (on "toString" 7%nat) constructor = Thrown TypeError
  ∧ state_after (on "toString" 7%nat) constructor = constructor
  ∧ result_of (off "valueOf" 7%nat) constructor = Thrown TypeError
  ∧ state_after (off "valueOf" 7%nat) constructor = constructor
  ∧ signals_error (AOn "toString" 7%nat) constructor = true
  ∧ signals_error (AOff "valueOf" 7%nat) constructor = true.
Proof. repeat split; vm_compute; reflexivity. Qed.

(* ===================================================================== *)
(** * Status frame                                                         *)
(* ===================================================================== *)

Lemma cleared_not_outstanding (id : handle) (sch : list (handle * Number.t)) :
  List.filter (Pos.eqb id)
    (map fst (List.filter (fun e => negb (Pos.eqb (fst e) id)) sch)) = [].
Proof.
  induction sch as [|[h d] sch IH]; [reflexivity |].
  cbn [List.filter fst]. destruct (Pos.eqb_spec h id) as [->|Hne]; cbn [negb].
  - exact IH.
  - cbn [map List.filter fst]. rewrite IH.
    destruct (Pos.eqb_spec id h); [congruence | reflexivity].
Qed.

(** C9. [stop()] cancels the pending scheduled step (the one whose handle
    the engine holds), resets both the playing and the paused flag and leaves
    the position unchanged; [rewind], [skip] and [jumpTo] leave the play/pause
    status (and the timer) unchanged for every argument and every state. *)
Theorem stop_and_navigation_frame (s : Engine) (count : option Z) (index : Z) :
  isPlaying (state_after stop s) = false
  ∧ isPaused (state_after stop s) = false
  ∧ timerId (state_after stop s) = None
  ∧ match timerId s with
    | Some id => List.filter (Pos.eqb id) (outstanding (state_after stop s)) = []
    | None => outstanding (state_after stop s) = outstanding s
    end
  ∧ currentIndex (state_after stop s) = currentIndex s
  ∧ same_status s (state_after (rewind count) s)
  ∧ same_status s (state_after (skip count) s)
  ∧ same_status s (state_after (jumpTo index) s).
Proof.
  rewrite stop_state, clearTimer_state, rewind_state, skip_state, jumpTo_state.
  cbn [timerId set_isPaused set_isPlaying].
  destruct (timerId s) as [id|] eqn:E; cbn; unfold same_status; cbn;
    rewrite ?E; repeat split; try reflexivity.
  apply cleared_not_outstanding.
Qed.

(* ===================================================================== *)
(** * Event system                                                         *)
(* ===================================================================== *)

Lemma emit_trace (event : string) (d : Payload) (s : Engine) :
  trace_of (_emit event d) s
  = map (fun c => Call c event d) (registrations s event).
Proof.
  unfold registrations. run_method.
  destruct (_listeners s !! event); [reflexivity |].
  destruct (inherited event); reflexivity.
Qed.

Lemma emit_returns (event : string) (d : Payload) (s : Engine) :
  inherited event = false -> throws (_emit event d) s = false.
Proof.
  intros H. run_method. rewrite H.
  destruct (_listeners s !! event); reflexivity.
Qed.

Lemma off_registrations (event e' : string) (cb : callback) (s : Engine) :
  registrations (state_after (off event cb) s) e'
  = if decide (e' = event) then without cb (registrations s e')
    else registrations s e'.
Proof.
  unfold registrations. run_method.
  destruct (_listeners s !! event) as [cbs|] eqn:E; cbn [_listeners fst snd].
  - destruct (decide (e' = event)) as [->|Hne].
    + rewrite lookup_insert_eq, E. reflexivity.
    + rewrite lookup_insert_ne by congruence. reflexivity.
  - destruct (inherited event); cbn [_listeners fst snd];
      (destruct (decide (e' = event)) as [->|?]; [rewrite E|]; reflexivity).
Qed.

Lemma on_registrations (event e' : string) (cb : callback) (s : Engine) :
  inherited event = false ->
  registrations (state_after (on event cb) s) e'
  = if decide (e' = event) then registrations s e' ++ [cb]
    else registrations s e'.
Proof.
  intros H. unfold state_after. rewrite on_returns by exact H.
  unfold registrations. cbn [fst snd set_listeners _listeners].
  destruct (decide (e' = event)) as [->|Hne].
  - rewrite lookup_insert_eq. reflexivity.
  - rewrite lookup_insert_ne by congruence. reflexivity.
Qed.

Lemma calls_to_map (cb : callback) (event : string) (d : Payload)
      (cbs : list callback) :
  calls_to cb (map (fun c => Call c event d) cbs)
  = length (List.filter (fun c => Nat.eqb c cb) cbs).
Proof.
  unfold calls_to. induction cbs as [|c cbs IH]; [reflexivity |].
  cbn [map List.filter]. destruct (Nat.eqb c cb); cbn [length]; lia.
Qed.

Lemma without_absent (cb : callback) (cbs : list callback) :
  List.filter (fun c => Nat.eqb c cb) (without cb cbs) = [].
Proof.
  unfold without. induction cbs as [|c cbs IH]; [reflexivity |].
  cbn [List.filter]. destruct (Nat.eqb c cb) eqn:E; cbn [negb List.filter].
  - exact IH.
  - rewrite E. exact IH.
Qed.

Lemma listeners_kept (a : Action) (s : Engine) :
  manages_listeners a = false ->
  match exec a s with
  | Some (s', _) => _listeners s' = _listeners s
  | None => True
  end.
Proof.
  destruct a; cbn [manages_listeners exec]; try discriminate; intros _.
  all: try (destruct (bool_decide _); [| exact I]).
  all: rewrite ?load_state, ?play_state, ?pause_state, ?togglePlay_state,
         ?rewind_state, ?skip_state, ?jumpTo_state, ?setSpeed_state,
         ?setChunkSize_state, ?stop_state, ?getProgress_state, ?fire_state.
  all: rewrite ?pause_state, ?play_state.
  all: rewrite ?tick_state, ?clearTimer_state.
  all: split_ifs; reflexivity.
Qed.

(** C10. Every playback operation, [load()] and [stop()] included, and every
    timer step leaves the table of registered listeners unchanged; only
    [on()] and [off()] modify it.  For an event name that is not the name of
    a member of [Object.prototype], as is every channel of the engine:
    [on()] returns, appends one registration and hands back the closure that
    runs [off]; [off(event, cb)] returns, removes every registration of [cb]
    under that event at once and touches no other event.  Emission returns
    and calls the registered callbacks in order, so a callback registered
    twice is called twice per emission until it is removed. *)
Theorem listener_table_frame (s : Engine) (a : Action) (event e' : string)
        (cb : callback) (d : Payload) :
  inherited event = false ->
  (if manages_listeners a then True
   else match exec a s with
        | Some (s', _) => _listeners s' = _listeners s
        | None => True
        end)
  ∧ result_of (off event cb) s = Returned tt
  ∧ registrations (state_after (off event cb) s) e'
    = (if decide (e' = event) then without cb (registrations s e')
       else registrations s e')
  ∧ List.filter (fun c => Nat.eqb c cb)
      (registrations (state_after (off event cb) s) event) = []
  ∧ result_of (on event cb) s = Returned (off event cb)
  ∧ registrations (state_after (on event cb) s) e'
    = (if decide (e' = event) then registrations s e' ++ [cb]
       else registrations s e')
  ∧ result_of (_emit event d) s = Returned tt
  ∧ trace_of (_emit event d) s
    = map (fun c => Call c event d) (registrations s event)
  ∧ calls_to cb (trace_of (_emit event d)
                   (state_after (on event cb) (state_after (on event cb) s)))
    = (calls_to cb (trace_of (_emit event d) s) + 2)%nat
  ∧ calls_to cb (trace_of (_emit event d)
                   (state_after (off event cb)
                      (state_after (on event cb) (state_after (on event cb) s))))
    = 0%nat.
Proof.
  intros Hev. split.
  { destruct (manages_listeners a) eqn:E; [exact I |].
    apply listeners_kept, E. }
  split.
  { unfold result_of. rewrite off_returns by exact Hev. reflexivity. }
  split; [apply off_registrations |].
  split.
  { rewrite off_registrations. destruct (decide (event = event)); [| congruence].
    apply without_absent. }
  split.
  { unfold result_of. rewrite on_returns by exact Hev. reflexivity. }
  split; [apply on_registrations, Hev |].
  split.
  { pose proof (emit_returns event d s Hev) as Hr. unfold throws in Hr.
    destruct (result_of (_emit event d) s) as [[]|]; [reflexivity | discriminate]. }
  split; [apply emit_trace |].
  rewrite !emit_trace, !calls_to_map, off_registrations,
    !(on_registrations _ _ _ _ Hev).
  destruct (decide (event = event)); [| congruence].
  split.
  - rewrite <- app_assoc, List.filter_app, length_app. cbn [app List.filter].
    rewrite Nat.eqb_refl. cbn [length]. lia.
  - rewrite without_absent. reflexivity.
Qed.

Lemma listener_table_frame_witness :
  inherited "word" = false
  ∧ result_of (on "word" 7%nat) constructor = Returned (off "word" 7%nat)
  ∧ calls_to 7%nat
      (trace_of (_emit "word" Undefined)
         (state_after (on "word" 7%nat)
            (state_after (on "word" 7%nat) constructor)))
    = (calls_to 7%nat (trace_of (_emit "word" Undefined) constructor) + 2)%nat.
Proof.
  pose proof (listener_table_frame constructor APlay "word" "word" 7%nat
                Undefined eq_refl) as H.
  split; [reflexivity |].
  split; [exact (proj1 (proj2 (proj2 (proj2 (proj2 H))))) |].
  exact (proj1 (proj2 (proj2 (proj2 (proj2 (proj2 (proj2 (proj2 (proj2 H))))))))).
Defined.

(* ===================================================================== *)
(** * Position invariant                                                   *)
(* ===================================================================== *)


Lemma len_nonneg {A} (l : list A) : 0 <= len l.
Proof. unfold len. lia. Qed.

Lemma len_nonempty {A} (l : list A) : l ≠ [] -> 1 <= len l.
Proof. destruct l; [congruence | unfold len; cbn [length]; lia]. Qed.

Lemma findSentenceStart_bounds (s : Engine) (i : Z) :
  0 <= i -> 0 <= _findSentenceStart s i <= i.
Proof.
  intros Hi.
  destruct (findSentenceStart_spec s i) as [(j & Hj & _ & _ & ->) | [_ ->]]; lia.
Qed.

Lemma findSentenceEnd_bounds (s : Engine) (i : Z) :
  words s ≠ [] -> 0 <= i -> 0 <= _findSentenceEnd s i <= len (words s) - 1.
Proof.
  intros Hne Hi. apply len_nonempty in Hne.
  destruct (findSentenceEnd_spec s i) as [(j & Hj & _ & _ & ->) | [_ ->]]; lia.
Qed.

Lemma tick_position_inv (s : Engine) :
  position_inv s -> position_inv (state_after _tick s).
Proof.
  unfold position_inv. rewrite tick_state. intros [Hp Hc].
  split_ifs; cbn; prop_of_bool; lia.
Qed.

Lemma clearTimer_position (s : Engine) :
  position_inv (state_after _clearTimer s) <-> position_inv s.
Proof.
  unfold position_inv. rewrite clearTimer_state.
  destruct (timerId s); reflexivity.
Qed.

Lemma step_position_inv (a : Action) (s s' : Engine) (t : list Invocation) :
  position_inv s -> within_design s a -> exec a s = Some (s', t) ->
  position_inv s'.
Proof.
  intros Hinv Hok Hex.
  pose proof (len_nonneg (words s)) as Hlen.
  destruct a; cbn [exec within_design] in Hex, Hok;
    try (destruct (bool_decide _); [| discriminate]);
    injection Hex as <- _.
  - (* load *)
    destruct Hok as [Hne Hi]. apply len_nonempty in Hne.
    rewrite load_state. apply clearTimer_position.
    destruct Hinv as [_ Hc]. unfold position_inv. cbn. lia.
  - (* play *)
    rewrite play_state. destruct (len (words s) =? 0) eqn:E; [exact Hinv |].
    apply tick_position_inv. prop_of_bool.
    destruct Hinv as [Hp Hc]. unfold position_inv.
    destruct (currentIndex s >=? len (words s)); cbn; lia.
  - (* pause *)
    rewrite pause_state. apply clearTimer_position. exact Hinv.
  - (* togglePlay *)
    rewrite togglePlay_state. destruct (isPlaying s).
    + rewrite pause_state. apply clearTimer_position. exact Hinv.
    + rewrite play_state. destruct (len (words s) =? 0) eqn:E; [exact Hinv |].
      apply tick_position_inv. prop_of_bool.
      destruct Hinv as [Hp Hc]. unfold position_inv.
      destruct (currentIndex s >=? len (words s)); cbn; lia.
  - (* rewind *)
    rewrite rewind_state. destruct Hinv as [Hp Hc]. unfold position_inv.
    destruct count as [n|]; cbn in Hok |- *.
    + lia.
    + pose proof (findSentenceStart_bounds s (currentIndex s)). lia.
  - (* skip *)
    rewrite skip_state. destruct Hinv as [Hp Hc], Hok as [Hne Hn].
    unfold position_inv. pose proof (len_nonempty _ Hne).
    destruct count as [n|]; cbn in Hn |- *.
    + lia.
    + pose proof (findSentenceEnd_bounds s (currentIndex s) Hne). lia.
  - (* jumpTo *)
    rewrite jumpTo_state. destruct Hinv as [Hp Hc]. unfold position_inv.
    cbn. lia.
  - (* setSpeed *) rewrite setSpeed_state. exact Hinv.
  - (* setChunkSize *)
    rewrite setChunkSize_state. destruct Hinv as [Hp Hc].
    unfold position_inv. cbn. lia.
  - (* stop *)
    rewrite stop_state. apply clearTimer_position. exact Hinv.
  - (* getProgress *) exact Hinv.
  - (* on *)
    destruct (on_off_frame event cb s) as [[L ->] _]. exact Hinv.
  - (* off *)
    destruct (on_off_frame event cb s) as [_ [L ->]]. exact Hinv.
  - (* a timer fires *)
    rewrite fire_state. apply tick_position_inv. exact Hinv.
Qed.

Lemma reachable_position_inv (s : Engine) :
  reachable within_design s -> position_inv s.
Proof.
  induction 1 as [|s a s' t _ IH Hok Hex].
  - unfold position_inv, constructor, len.
    cbn [currentIndex words chunkSize length]. lia.
  - eapply step_position_inv; eassumption.
Qed.

Lemma tail_state_reachable : reachable within_design tail_state.
Proof.
  unfold tail_state.
  set (s1 := state_after (load fox_sequence (Some 0)) constructor).
  set (s2 := state_after (setChunkSize 3) s1).
  set (s3 := state_after play s2).
  assert (R1 : reachable within_design s1).
  { eapply (reach_step _ constructor (ALoad fox_sequence (Some 0)));
      [apply reach_init | split; [discriminate | cbn; lia] | reflexivity]. }
  assert (R2 : reachable within_design s2).
  { eapply (reach_step _ s1 (ASetChunkSize 3)); [exact R1 | exact I | reflexivity]. }
  assert (R3 : reachable within_design s3).
  { eapply (reach_step _ s2 APlay); [exact R2 | exact I | reflexivity]. }
  eapply (reach_step _ s3 (AFire 1%positive)); [exact R3 | exact I |].
  vm_compute. reflexivity.
Defined.

(** C3 as stated fails: within the calls the engine is written for, an
    autoplay step taken near the tail moves the position past the length
    (position 6 in a sequence of 5 words). *)
Lemma position_overshoots_length :
  reachable within_design tail_state
  ∧ currentIndex tail_state = 6
  ∧ len (words tail_state) = 5
  ∧ ¬ (0 <= currentIndex tail_state <= len (words tail_state)).
Proof.
  split; [apply tail_state_reachable |].
  assert (Hi : currentIndex tail_state = 6) by (vm_compute; reflexivity).
  assert (Hl : len (words tail_state) = 5) by (vm_compute; reflexivity).
  rewrite Hi, Hl. repeat split; lia.
Qed.

(** C3, amended.  In every state reached by calls with non-negative counts
    and start indices, [load] and [skip] working on a non-empty sequence, the
    position is at least 0 and at most length + 2: an autoplay step advances
    by the chunk size (at most 3) from a position below the length, so it can
    overshoot the length by at most 2. *)
Theorem position_bounds (s : Engine) :
  reachable within_design s ->
  0 <= currentIndex s <= len (words s) + 2.
Proof. intros H. apply reachable_position_inv in H. apply H. Qed.

Lemma position_bounds_witness :
  reachable within_design tail_state
  ∧ 0 <= currentIndex tail_state <= len (words tail_state) + 2.
Proof.
  split; [apply tail_state_reachable |].
  apply (position_bounds tail_state). apply tail_state_reachable.
Defined.

(* ===================================================================== *)
(** * Outstanding steps                                                    *)
(* ===================================================================== *)

Lemma outstanding_nil (s : Engine) : outstanding s = [] -> scheduled s = [].
Proof. unfold outstanding. destruct (scheduled s); [reflexivity | discriminate]. Qed.

Lemma cancel_single (id : handle) (sch : list (handle * Number.t)) :
  map fst sch = [] ∨ map fst sch = [id] ->
  List.filter (fun e => negb (Pos.eqb (fst e) id)) sch = [].
Proof.
  destruct sch as [|[h d] [|e sch]]; cbn; intros [H|H]; try discriminate;
    try reflexivity.
  injection H as ->. rewrite Pos.eqb_refl. reflexivity.
Qed.

Lemma clearTimer_outstanding (s : Engine) :
  outstanding s = [] ∨ (∃ id, outstanding s = [id] ∧ timerId s = Some id) ->
  outstanding (state_after _clearTimer s) = [].
Proof.
  intros H. rewrite clearTimer_state. unfold outstanding in *.
  destruct (timerId s) as [id|] eqn:E.
  - cbn. rewrite cancel_single; [reflexivity |].
    destruct H as [H | (id' & H & Hid)]; [left; exact H | right].
    injection Hid as ->. exact H.
  - destruct H as [H | (id' & _ & Hid)]; [exact H | discriminate].
Qed.

Lemma timer_inv_weaken (s : Engine) :
  timer_inv s ->
  outstanding s = [] ∨ (∃ id, outstanding s = [id] ∧ timerId s = Some id).
Proof. intros [H | [_ H]]; [left | right]; exact H. Qed.

Lemma tick_timer_inv (s : Engine) :
  outstanding s = [] -> timer_inv (state_after _tick s).
Proof.
  intros H. rewrite tick_state. unfold timer_inv.
  destruct (negb (isPlaying s) || (currentIndex s >=? len (words s))) eqn:E.
  - left. destruct (currentIndex s >=? len (words s)); exact H.
  - right. prop_of_bool. split; [assumption |].
    exists (nextHandle s). unfold outstanding in *. cbn.
    rewrite map_app, H. split; reflexivity.
Qed.

Lemma play_timer_inv (s : Engine) :
  outstanding s = [] -> timer_inv (state_after play s).
Proof.
  intros H. rewrite play_state.
  destruct (len (words s) =? 0); [left; exact H |].
  apply tick_timer_inv.
  destruct (currentIndex s >=? len (words s)); exact H.
Qed.

Lemma halted_no_step (s s0 : Engine) :
  timer_inv s -> outstanding s0 = outstanding s -> timerId s0 = timerId s ->
  outstanding (state_after _clearTimer s0) = [].
Proof.
  intros Hinv Ho Ht. apply clearTimer_outstanding.
  rewrite Ho, Ht. apply timer_inv_weaken, Hinv.
Qed.

Lemma pause_no_step (s : Engine) :
  timer_inv s -> outstanding (state_after pause s) = [].
Proof. intros H. rewrite pause_state. eapply halted_no_step; [exact H | |]; reflexivity. Qed.

Lemma stop_no_step (s : Engine) :
  timer_inv s -> outstanding (state_after stop s) = [].
Proof. intros H. rewrite stop_state. eapply halted_no_step; [exact H | |]; reflexivity. Qed.

Lemma load_no_step (ws : list jsstring) (i : option Z) (s : Engine) :
  timer_inv s -> outstanding (state_after (load ws i) s) = [].
Proof. intros H. rewrite load_state. eapply halted_no_step; [exact H | |]; reflexivity. Qed.

Lemma no_step_cannot_fire (s : Engine) :
  outstanding s = [] -> no_step_pending s.
Proof.
  intros H. split; [exact H |]. intros id. cbn [exec]. rewrite H.
  rewrite bool_decide_eq_false_2; [reflexivity | apply not_elem_of_nil].
Qed.

Lemma timer_inv_frame (s s' : Engine) :
  outstanding s' = outstanding s -> timerId s' = timerId s ->
  isPlaying s' = isPlaying s -> timer_inv s -> timer_inv s'.
Proof. unfold timer_inv. intros -> -> ->. exact id. Qed.

Lemma step_timer_inv (a : Action) (s s' : Engine) (t : list Invocation) :
  timer_inv s -> play_when_idle s a -> exec a s = Some (s', t) ->
  timer_inv s'.
Proof.
  intros Hinv Hok Hex.
  assert (Hidle : isPlaying s = false -> outstanding s = []).
  { intros Hp. destruct Hinv as [H | [Hq _]]; [exact H | congruence]. }
  destruct a; cbn [exec play_when_idle] in Hex, Hok;
    try (destruct (bool_decide _) eqn:Hin; [| discriminate]);
    injection Hex as <- _.
  - left. apply load_no_step, Hinv.
  - apply play_timer_inv, Hidle, Hok.
  - left. apply pause_no_step, Hinv.
  - rewrite togglePlay_state. destruct (isPlaying s) eqn:Hp.
    + left. apply pause_no_step, Hinv.
    + apply play_timer_inv, Hidle. reflexivity.
  - rewrite rewind_state. eapply timer_inv_frame; [| | | exact Hinv]; reflexivity.
  - rewrite skip_state. eapply timer_inv_frame; [| | | exact Hinv]; reflexivity.
  - rewrite jumpTo_state. eapply timer_inv_frame; [| | | exact Hinv]; reflexivity.
  - rewrite setSpeed_state. exact Hinv.
  - exact Hinv.
  - left. apply stop_no_step, Hinv.
  - exact Hinv.
  - destruct (on_off_frame event cb s) as [[L ->] _]. exact Hinv.
  - destruct (on_off_frame event cb s) as [_ [L ->]]. exact Hinv.
  - rewrite fire_state. apply tick_timer_inv.
    unfold outstanding. cbn [scheduled set_scheduled].
    rewrite cancel_single; [reflexivity |].
    prop_of_bool. fold (outstanding s).
    destruct Hinv as [H | [_ (id0 & H & _)]]; rewrite H in Hin |- *.
    + left. reflexivity.
    + right. apply list_elem_of_singleton in Hin as ->. reflexivity.
Qed.

Lemma reachable_timer_inv (s : Engine) :
  reachable play_when_idle s -> timer_inv s.
Proof.
  induction 1 as [|s a s' t _ IH Hok Hex].
  - left. reflexivity.
  - eapply step_timer_inv; eassumption.
Qed.

Lemma pause_trace (s : Engine) :
  trace_of pause s
  = map (fun c => Call c "pause" (PauseData (currentIndex s)))
        (registrations s "pause").
Proof.
  unfold registrations. run_method.
  destruct (timerId s); cbn; destruct (_listeners s !! "pause"); reflexivity.
Qed.

Lemma playing_fox_reachable : reachable play_when_idle playing_fox.
Proof.
  unfold playing_fox.
  set (s1 := state_after (load fox_sequence None) constructor).
  assert (R1 : reachable play_when_idle s1).
  { eapply (reach_step _ constructor (ALoad fox_sequence None));
      [apply reach_init | exact I | reflexivity]. }
  eapply (reach_step _ s1 APlay); [exact R1 | reflexivity | reflexivity].
Defined.

(** C5 as stated fails: [play()] never cancels a pending step, so a second
    [play()] while playing leaves two steps outstanding; [pause()] then
    cancels only the later one, and the step with handle 1, scheduled before
    the [pause()], still fires.  After one more [play()] that stale step runs
    as a second autoplay chain (position 4 after three calls of [play()] and
    one timer). *)
Lemma double_play_leaves_stale_step :
  outstanding_after [ALoad fox_sequence None; APlay; APlay]
    = Some [1; 2]%positive
  ∧ outstanding_after [ALoad fox_sequence None; APlay; APlay; APause]
    = Some [1%positive]
  ∧ is_Some (execs [ALoad fox_sequence None; APlay; APlay; APause;
                    AFire 1%positive] constructor)
  ∧ position_after [ALoad fox_sequence None; APlay; APlay; APause; APlay;
                    AFire 1%positive] = Some 4
  ∧ outstanding_after [ALoad fox_sequence None; APlay; APlay; APause; APlay;
                       AFire 1%positive] = Some [3; 4]%positive.
Proof.
  repeat split; try (vm_compute; reflexivity).
  vm_compute. eexists. reflexivity.
Qed.

(** C5, amended.  When [play()] is called only on an engine that is not
    already playing (as [togglePlay()] does), at most one scheduled step is
    outstanding in every reachable state, and after [pause()], [stop()] or
    [load()] returns none is outstanding, so no step scheduled before the
    call can fire; [pause()] itself calls the pause listeners only.  In
    particular [pause()] right after such a [play()] leaves no step in
    flight, hence no further word or progress event. *)
Theorem single_outstanding_step (s : Engine) :
  reachable play_when_idle s ->
  (length (outstanding s) <= 1)%nat
  ∧ no_step_pending (state_after pause s)
  ∧ no_step_pending (state_after stop s)
  ∧ (∀ ws i, no_step_pending (state_after (load ws i) s))
  ∧ trace_of pause s
    = map (fun c => Call c "pause" (PauseData (currentIndex s)))
          (registrations s "pause").
Proof.
  intros Hr. apply reachable_timer_inv in Hr.
  split.
  { destruct Hr as [H | [_ (id & H & _)]]; rewrite H; cbn [length]; lia. }
  split; [apply no_step_cannot_fire, pause_no_step, Hr |].
  split; [apply no_step_cannot_fire, stop_no_step, Hr |].
  split; [intros ws i; apply no_step_cannot_fire, load_no_step, Hr |].
  apply pause_trace.
Qed.

Lemma single_outstanding_step_witness :
  reachable play_when_idle playing_fox
  ∧ outstanding playing_fox = [1%positive]
  ∧ no_step_pending (state_after pause playing_fox).
Proof.
  split; [apply playing_fox_reachable |].
  split; [vm_compute; reflexivity |].
  exact (proj1 (proj2 (single_outstanding_step playing_fox playing_fox_reachable))).
Defined.

(* ===================================================================== *)
(** * Loading                                                              *)
(* ===================================================================== *)

Lemma load_trace (ws : list jsstring) (startIndex : option Z) (s : Engine) :
  trace_of (load ws startIndex) s
  = map (fun c => Call c "load"
                    (LoadData (len ws)
                              (Z.min (default 0 startIndex) (len ws - 1))))
        (registrations s "load").
Proof.
  unfold registrations. run_method.
  split_ifs; cbn [default from_option id app map]; reflexivity.
Qed.

(** What [load] does in every state: the sequence is replaced, the position
    is the smaller of the start index and [length - 1], both status flags are
    cleared, the engine holds no timer handle, and the load listeners receive
    the word count and that position. *)
Lemma load_effects (ws : list jsstring) (startIndex : option Z) (s : Engine) :
  let s' := state_after (load ws startIndex) s in
  words s' = ws
  ∧ currentIndex s' = Z.min (default 0 startIndex) (len ws - 1)
  ∧ isPlaying s' = false ∧ isPaused s' = false ∧ timerId s' = None
  ∧ trace_of (load ws startIndex) s
    = map (fun c => Call c "load" (LoadData (len ws) (currentIndex s')))
          (registrations s "load").
Proof.
  cbv zeta. rewrite load_trace, load_state, clearTimer_state.
  cbn [timerId set_isPaused set_isPlaying set_currentIndex set_words].
  destruct (timerId s) eqn:E;
    cbn [words currentIndex isPlaying isPaused timerId set_timerId
         set_scheduled set_isPaused set_isPlaying set_currentIndex set_words];
    rewrite ?E; repeat split; reflexivity.
Qed.

(** Where the start index lies within the sequence, that position is the
    clamped one. *)
Lemma load_position_in_range (ws : list jsstring) (i : Z) (s : Engine) :
  ws ≠ [] -> 0 <= i ->
  currentIndex (state_after (load ws (Some i)) s) = resolved_start ws i.
Proof.
  intros Hne Hi. apply len_nonempty in Hne.
  destruct (load_effects ws (Some i) s) as (_ & -> & _).
  unfold resolved_start, clamp. cbn [default from_option id].
  destruct (Z.eqb_spec (len ws) 0), (Z.ltb_spec i 0),
    (Z.ltb_spec (len ws - 1) i); lia.
Qed.

(** C4. [load] clamps the start index from above only: [load([])] leaves the
    position at -1 where the clamped start is 0, and a negative start index
    is stored as it is ([load(["a","b"], -5)] leaves -5, not 0).  The sibling
    [jumpTo] clamps on both sides. *)
Theorem load_position_not_clamped_below :
  currentIndex (state_after (load [] None) constructor) = -1
  ∧ resolved_start [] 0 = 0
  ∧ currentIndex (state_after (load [js "a"; js "b"] (Some (-5))) constructor) = -5
  ∧ resolved_start [js "a"; js "b"] (-5) = 0
  ∧ currentIndex
      (state_after (jumpTo (-5))
         (state_after (load [js "a"; js "b"] (Some (-5))) constructor)) = 0.
Proof. repeat split; vm_compute; reflexivity. Qed.

(* ===================================================================== *)
(** * Progress                                                             *)
(* ===================================================================== *)

Lemma mul_comm (x y : Number.t) : Number.mul x y = Number.mul y x.
Proof.
  destruct x as [sx|sx| |sx mx ex], y as [sy|sy| |sy my ey];
    cbn; rewrite ?(xorb_comm sx sy); try reflexivity.
  rewrite (Pos.mul_comm mx my), (Z.add_comm ex ey). reflexivity.
Qed.

(** [getProgress()] has no side effect and returns the record of the
    progress formulas, for every state. *)
Lemma getProgress_formula (s : Engine) :
  getProgress s = (Returned (progress_of s), s, []).
Proof.
  unfold getProgress, bind, get, ret. cbn. f_equal. f_equal.
  unfold _progressData, progress_of, percent_of, _formatTime, time_text.
  f_equal.
  pose proof (len_nonneg (words s)) as Hlen.
  destruct (Z.gtb_spec (len (words s)) 0), (Z.eqb_spec (len (words s)) 0);
    try lia.
  - rewrite mul_comm. reflexivity.
  - reflexivity.
Qed.

Lemma rate_kept (a : Action) (s : Engine) :
  match a with
  | ASetSpeed _ => True
  | _ => match exec a s with
         | Some (s', _) => wpm s' = wpm s
         | None => True
         end
  end.
Proof.
  destruct a; cbn [exec]; try exact I.
  all: try (destruct (bool_decide _); [| exact I]).
  all: rewrite ?load_state, ?play_state, ?pause_state, ?togglePlay_state,
         ?rewind_state, ?skip_state, ?jumpTo_state,
         ?setChunkSize_state, ?stop_state, ?getProgress_state, ?fire_state.
  all: rewrite ?pause_state, ?play_state.
  all: rewrite ?tick_state, ?clearTimer_state.
  all: try match goal with
           | |- context [on _ _] => run_method
           | |- context [off _ _] => run_method
           end.
  all: split_ifs; reflexivity.
Qed.

Lemma reachable_rate (s : Engine) : reachable any_call s -> rate_inv s.
Proof.
  induction 1 as [|s a s' t _ IH _ Hex]; unfold rate_inv in *.
  - cbn. lia.
  - pose proof (rate_kept a s) as Hk. rewrite Hex in Hk.
    destruct a; try (rewrite Hk; exact IH).
    cbn [exec] in Hex. injection Hex as <- _.
    rewrite setSpeed_state. cbn. lia.
Qed.

Lemma few_words_under_a_minute (k r : Z) :
  0 <= k <= 1 -> 50 <= r <= 1500 ->
  time_text (Number.div (Number.of_Z k) (Number.of_Z r)) = js "< 1 min".
Proof.
  intros Hk Hr.
  assert (Hall : forallb
            (fun n =>
               Number.ltb
                 (Number.div (Number.of_Z 0) (Number.of_Z (Z.of_nat n)))
                 (Number.of_Z 1)
               && Number.ltb
                    (Number.div (Number.of_Z 1) (Number.of_Z (Z.of_nat n)))
                    (Number.of_Z 1))
            (seq 50 1451) = true) by (vm_compute; reflexivity).
  rewrite forallb_forall in Hall.
  specialize (Hall (Z.to_nat r)).
  rewrite Z2Nat.id in Hall by lia.
  apply andb_true_iff in Hall as [H0 H1]; [| apply in_seq; lia].
  unfold time_text.
  assert (Hcases : k = 0 ∨ k = 1) by lia.
  destruct Hcases as [-> | ->]; [rewrite H0 | rewrite H1]; reflexivity.
Qed.

Lemma reachable_weaken (ok ok' : Engine -> Action -> Prop) (s : Engine) :
  (forall s a, ok s a -> ok' s a) -> reachable ok s -> reachable ok' s.
Proof.
  intros Hsub. induction 1 as [|s a s' t _ IH Hok Hex].
  - apply reach_init.
  - eapply reach_step; [exact IH | apply Hsub, Hok | exact Hex].
Qed.

Lemma sentenceStartFrom_nil (k : nat) : sentenceStartFrom [] k = 0.
Proof. induction k as [|k IH]; [reflexivity | exact IH]. Qed.

Lemma sentenceEndFrom_nil (i : Z) (fuel : nat) : sentenceEndFrom [] i fuel = -1.
Proof.
  revert i. induction fuel as [|fuel IH]; intros i; [reflexivity |].
  cbn [sentenceEndFrom]. unfold at_index.
  destruct (i <? 0); cbn [sentence_end]; apply IH.
Qed.

Lemma step_empty_inv (a : Action) (s s' : Engine) (t : list Invocation) :
  empty_inv s -> no_negative_argument s a -> exec a s = Some (s', t) ->
  empty_inv s'.
Proof.
  intros Hinv Hok Hex.
  destruct a; cbn [exec no_negative_argument] in Hex, Hok;
    try (destruct (bool_decide _); [| discriminate]);
    injection Hex as <- _; unfold empty_inv in *.
  - (* load *)
    rewrite load_state, clearTimer_state.
    destruct (timerId _); cbn; intros ->; change (len (@nil (list N))) with 0;
      split; try reflexivity; lia.
  - (* play *)
    rewrite play_state. destruct (len (words s) =? 0) eqn:E; [exact Hinv |].
    rewrite tick_state. prop_of_bool. intros Hw. exfalso. apply E.
    revert Hw. split_ifs; cbn; intros ->; reflexivity.
  - (* pause *)
    rewrite pause_state, clearTimer_state.
    destruct (timerId _); cbn; intros Hw; destruct (Hinv Hw);
      split; try reflexivity; lia.
  - (* togglePlay *)
    rewrite togglePlay_state. destruct (isPlaying s) eqn:Hp.
    + rewrite pause_state, clearTimer_state.
      destruct (timerId _); cbn; intros Hw; destruct (Hinv Hw);
        split; try reflexivity; lia.
    + rewrite play_state.
      destruct (len (words s) =? 0) eqn:E; [rewrite Hp; exact Hinv |].
      rewrite tick_state. prop_of_bool. intros Hw. exfalso. apply E.
      revert Hw. split_ifs; cbn; intros ->; reflexivity.
  - (* rewind *)
    rewrite rewind_state. cbn. intros Hw. destruct (Hinv Hw) as [Hp Hi].
    split; [exact Hp |]. destruct count as [n|]; cbn in Hok.
    + lia.
    + unfold _findSentenceStart. rewrite Hw, sentenceStartFrom_nil. lia.
  - (* skip *)
    rewrite skip_state. cbn. intros Hw. destruct (Hinv Hw) as [Hp Hi].
    split; [exact Hp |]. destruct count as [n|]; cbn in Hok.
    + rewrite Hw. change (len (@nil (list N))) with 0. lia.
    + unfold _findSentenceEnd. rewrite Hw, sentenceEndFrom_nil. lia.
  - (* jumpTo *)
    rewrite jumpTo_state. cbn. intros Hw. destruct (Hinv Hw) as [Hp Hi].
    split; [exact Hp |]. rewrite Hw. change (len (@nil (list N))) with 0. lia.
  - (* setSpeed *) rewrite setSpeed_state. exact Hinv.
  - (* setChunkSize *) exact Hinv.
  - (* stop *)
    rewrite stop_state, clearTimer_state.
    destruct (timerId _); cbn; intros Hw; destruct (Hinv Hw);
      split; try reflexivity; lia.
  - (* getProgress *) exact Hinv.
  - (* on *)
    destruct (on_off_frame event cb s) as [[L ->] _]. exact Hinv.
  - (* off *)
    destruct (on_off_frame event cb s) as [_ [L ->]]. exact Hinv.
  - (* a timer fires *)
    rewrite fire_state, tick_state. cbn. intros Hw.
    assert (Hw' : words s = []).
    { revert Hw. split_ifs; cbn; intros ->; reflexivity. }
    destruct (Hinv Hw') as [Hp Hi]. rewrite Hp. cbn [negb orb].
    destruct (currentIndex s >=? len (words s)); cbn; split; try assumption;
      reflexivity.
Qed.

Lemma reachable_empty_inv (s : Engine) :
  reachable no_negative_argument s -> empty_inv s.
Proof.
  induction 1 as [|s a s' t _ IH Hok Hex].
  - intros _. cbn. split; [reflexivity | lia].
  - exact (step_empty_inv a s s' t IH Hok Hex).
Qed.

(** In every state reached by calls without a negative count or start
    index, an empty sequence is reported with percent 0 and "< 1 min", at
    most one word counted as remaining. *)
Lemma empty_sequence_progress (s : Engine) :
  reachable no_negative_argument s -> words s = [] ->
  percent (progress_of s) = Number.of_Z 0
  ∧ 0 <= wordsRemaining (progress_of s) <= 1
  ∧ timeRemaining (progress_of s) = js "< 1 min".
Proof.
  intros Hr Hw.
  destruct (reachable_empty_inv s Hr Hw) as [_ Hi].
  assert (Hrate : rate_inv s).
  { apply reachable_rate. revert Hr. apply reachable_weaken.
    intros ? ? _. exact I. }
  unfold progress_of, percent_of. rewrite Hw.
  change (len (@nil (list N))) with 0.
  cbn [percent wordsRemaining timeRemaining Z.eqb].
  split; [reflexivity |]. split; [lia |].
  apply few_words_under_a_minute; [lia | exact Hrate].
Qed.

(** C8. On an empty sequence [getProgress()] does not always report
    "< 1 min": [load([], -300)] stores the unclamped position -300, after
    which 300 words are counted as remaining and, at the default rate, the
    remaining time reads "1 min".  With the start index clamped as the
    sibling [jumpTo] clamps it, the same state reports "< 1 min". *)
Theorem getProgress_after_unclamped_load :
  words (state_after (load [] (Some (-300))) constructor) = []
  ∧ result_of getProgress (state_after (load [] (Some (-300))) constructor)
    = Returned {| current := -300; total := 0; percent := Number.of_Z 0;
                  wordsRemaining := 300; timeRemaining := js "1 min" |}
  ∧ js "1 min" ≠ js "< 1 min"
  ∧ resolved_start [] (-300) = 0
  ∧ timeRemaining
      (progress_of
         (state_after (jumpTo (-300))
            (state_after (load [] (Some (-300))) constructor)))
    = js "< 1 min".
Proof.
  split; [vm_compute; reflexivity |].
  split; [vm_compute; reflexivity |].
  split; [discriminate |].
  split; vm_compute; reflexivity.
Qed.

(* ===================================================================== *)
(** * Further properties of the ORP split                                  *)
(* ===================================================================== *)

Lemma splitAtORP_split_at (w : jsstring) :
  splitAtORP w = split_at w (orpIndex_of (cleanLength w)).
Proof.
  pose proof (orpIndex_of_nonneg (cleanLength w)) as Hnn.
  unfold splitAtORP, split_at. rewrite calculateORP_cases.
  rewrite substring_prefix, substring_suffix, at_index_nonneg by lia.
  reflexivity.
Qed.

(** X1. The three parts returned by [splitAtORP] always reassemble to the
    original word: nothing is lost or repeated by the split, the ORP part is
    at most one character, and the reported word length is the total length
    of the parts. *)
Theorem splitAtORP_reassembles (w : jsstring) :
  before (splitAtORP w) ++ orp (splitAtORP w) ++ after (splitAtORP w) = w
  ∧ (length (orp (splitAtORP w)) <= 1)%nat
  ∧ wordLength (splitAtORP w)
    = len (before (splitAtORP w)) + len (orp (splitAtORP w))
      + len (after (splitAtORP w)).
Proof.
  rewrite splitAtORP_split_at. unfold split_at.
  cbn [before orp after wordLength].
  pose proof (orpIndex_of_nonneg (cleanLength w)) as Hnn.
  set (i := orpIndex_of (cleanLength w)) in *.
  replace (Z.to_nat (i + 1)) with (S (Z.to_nat i)) by lia.
  assert (Hw : take (Z.to_nat i) w
               ++ match w !! Z.to_nat i with Some c => [c] | None => [] end
               ++ drop (S (Z.to_nat i)) w = w).
  { destruct (w !! Z.to_nat i) as [c|] eqn:E.
    - apply take_drop_middle. exact E.
    - apply lookup_ge_None in E.
      rewrite take_ge, drop_ge by lia. rewrite !app_nil_r. reflexivity. }
  split; [exact Hw |]. split.
  - destruct (w !! Z.to_nat i); cbn [length]; lia.
  - rewrite <- Hw at 1. unfold len. rewrite !length_app. lia.
Qed.

(* ===================================================================== *)
(** * Further properties of navigation                                     *)
(* ===================================================================== *)

Lemma sentenceStartFrom_fixed (ws : list jsstring) (k : nat) :
  sentenceStartFrom ws (Z.to_nat (sentenceStartFrom ws k))
  = sentenceStartFrom ws k.
Proof.
  induction k as [|i IH]; [reflexivity |].
  cbn [sentenceStartFrom].
  destruct (sentence_end (ws !! i)) eqn:E; [| exact IH].
  replace (Z.to_nat (Z.of_nat i + 1)) with (S i) by lia.
  cbn [sentenceStartFrom]. rewrite E. reflexivity.
Qed.

(** X2. [rewind()] without a count is idempotent: once the position is at
    the start of the current sentence, rewinding again stays there and never
    reaches an earlier sentence. *)
Theorem rewind_twice_stays (s : Engine) :
  state_after (rewind None) (state_after (rewind None) s)
  = state_after (rewind None) s.
Proof.
  rewrite !rewind_state. unfold _findSentenceStart, set_currentIndex.
  cbn [words currentIndex isPlaying isPaused timerId wpm chunkSize _listeners
       scheduled nextHandle].
  rewrite sentenceStartFrom_fixed. reflexivity.
Qed.

(** X3. Counted navigation round-trips inside the sequence: when the
    position is a valid index and at least [n] words precede it,
    [rewind(n)] followed by [skip(n)] restores the whole engine state. *)
Theorem rewind_skip_round_trip (s : Engine) (n : Z) :
  0 <= n <= currentIndex s ->
  currentIndex s <= len (words s) - 1 ->
  state_after (skip (Some n)) (state_after (rewind (Some n)) s) = s.
Proof.
  intros Hn Hi. rewrite skip_state, rewind_state.
  destruct s as [ws i pl pa tid r c ls sch nh].
  unfold set_currentIndex.
  cbn [words currentIndex isPlaying isPaused timerId wpm chunkSize _listeners
       scheduled nextHandle] in *.
  f_equal. lia.
Qed.

Lemma rewind_skip_round_trip_witness :
  0 <= 2 <= currentIndex (state_after (load fox_sequence (Some 3)) constructor)
  ∧ state_after (skip (Some 2))
      (state_after (rewind (Some 2))
         (state_after (load fox_sequence (Some 3)) constructor))
    = state_after (load fox_sequence (Some 3)) constructor.
Proof.
  split; [vm_compute; split; discriminate |].
  apply (rewind_skip_round_trip
           (state_after (load fox_sequence (Some 3)) constructor) 2).
  - vm_compute. split; discriminate.
  - vm_compute. discriminate.
Defined.

(** X4. [pause()] is idempotent on the state, yet it notifies: a second
    [pause()] changes nothing but still calls every pause listener with the
    current position. *)
Theorem pause_twice (s : Engine) :
  state_after pause (state_after pause s) = state_after pause s
  ∧ trace_of pause (state_after pause s)
    = map (fun c => Call c "pause" (PauseData (currentIndex s)))
          (registrations s "pause").
Proof.
  split.
  - rewrite !pause_state, !clearTimer_state.
    destruct s as [ws i pl pa [id|] r c ls sch nh]; reflexivity.
  - rewrite pause_trace. rewrite pause_state, clearTimer_state.
    unfold registrations.
    destruct s as [ws i pl pa [id|] r c ls sch nh]; reflexivity.
Qed.

(* ===================================================================== *)
(** * Status and configuration invariants                                  *)
(* ===================================================================== *)

Lemma reachable_invariant (ok : Engine -> Action -> Prop) (P : Engine -> Prop) :
  P constructor ->
  (∀ a s s' t, P s -> exec a s = Some (s', t) -> P s') ->
  ∀ s, reachable ok s -> P s.
Proof.
  intros H0 Hstep s Hr.
  induction Hr as [|s a s' t _ IH _ Hex]; [exact H0 |].
  eapply Hstep; eassumption.
Qed.

Lemma clearTimer_flags (s : Engine) :
  isPlaying (state_after _clearTimer s) = isPlaying s
  ∧ isPaused (state_after _clearTimer s) = isPaused s.
Proof. rewrite clearTimer_state. destruct (timerId s); split; reflexivity. Qed.

Lemma tick_flags (s : Engine) :
  isPaused (state_after _tick s) = isPaused s
  ∧ (isPlaying (state_after _tick s) = true -> isPlaying s = true).
Proof.
  rewrite tick_state. split_ifs; cbn; split; try reflexivity;
    try discriminate; trivial.
Qed.

Lemma step_flags (a : Action) (s s' : Engine) (t : list Invocation) :
  flags_inv s -> exec a s = Some (s', t) -> flags_inv s'.
Proof.
  unfold flags_inv. intros Hinv Hex.
  assert (Hplay : isPlaying (state_after play s) && isPaused (state_after play s)
                  = false).
  { rewrite play_state. destruct (len (words s) =? 0); [exact Hinv |].
    destruct (tick_flags
                (set_isPaused false
                   (set_isPlaying true
                      (if currentIndex s >=? len (words s)
                       then set_currentIndex 0 s else s)))) as [-> _].
    cbn. apply andb_false_r. }
  assert (Hpause : isPlaying (state_after pause s) && isPaused (state_after pause s)
                   = false).
  { rewrite pause_state.
    destruct (clearTimer_flags (set_isPaused true (set_isPlaying false s)))
      as [-> _]. reflexivity. }
  destruct a; cbn [exec] in Hex;
    try (destruct (bool_decide _); [| discriminate]);
    injection Hex as <- _.
  - rewrite load_state.
    match goal with |- context [state_after _clearTimer ?x] =>
      destruct (clearTimer_flags x) as [-> _] end. reflexivity.
  - exact Hplay.
  - exact Hpause.
  - rewrite togglePlay_state. destruct (isPlaying s); assumption.
  - rewrite rewind_state. exact Hinv.
  - rewrite skip_state. exact Hinv.
  - rewrite jumpTo_state. exact Hinv.
  - rewrite setSpeed_state. exact Hinv.
  - exact Hinv.
  - rewrite stop_state.
    match goal with |- context [state_after _clearTimer ?x] =>
      destruct (clearTimer_flags x) as [-> _] end. reflexivity.
  - exact Hinv.
  - destruct (on_off_frame event cb s) as [[L ->] _]. exact Hinv.
  - destruct (on_off_frame event cb s) as [_ [L ->]]. exact Hinv.
  - rewrite fire_state.
    match goal with |- context [state_after _tick ?x] =>
      destruct (tick_flags x) as [Hpa Hpl];
      destruct (isPlaying (state_after _tick x)) eqn:E end;
      [| reflexivity].
    rewrite Hpa. specialize (Hpl eq_refl). cbn in Hpl |- *.
    rewrite Hpl in Hinv. exact Hinv.
Qed.

(** X5. In every reachable state, whatever the calls, the playing and the
    paused flag are never both set: the engine is idle or ended (neither),
    playing, or paused. *)
Theorem flags_exclusive (s : Engine) :
  reachable any_call s -> isPlaying s && isPaused s = false.
Proof.
  apply (reachable_invariant any_call flags_inv); [reflexivity |].
  apply step_flags.
Qed.

Lemma flags_exclusive_witness :
  reachable any_call playing_fox
  ∧ isPlaying playing_fox && isPaused playing_fox = false.
Proof.
  assert (R : reachable any_call playing_fox).
  { unfold playing_fox.
    eapply (reach_step _ (state_after (load fox_sequence None) constructor) APlay);
      [| exact I | reflexivity].
    eapply (reach_step _ constructor (ALoad fox_sequence None));
      [apply reach_init | exact I | reflexivity]. }
  split; [exact R | exact (flags_exclusive playing_fox R)].
Defined.

Lemma held_frame (s s' : Engine) :
  isPlaying s' = isPlaying s -> timerId s' = timerId s ->
  outstanding s' = outstanding s -> held_step_inv s -> held_step_inv s'.
Proof. unfold held_step_inv. intros -> -> ->. exact id. Qed.

Lemma halted_held (s : Engine) :
  isPlaying s = false -> held_step_inv s.
Proof. unfold held_step_inv. intros ->. discriminate. Qed.

Lemma tick_held (s : Engine) : held_step_inv (state_after _tick s).
Proof.
  rewrite tick_state.
  destruct (negb (isPlaying s) || (currentIndex s >=? len (words s))) eqn:E.
  - destruct (currentIndex s >=? len (words s)) eqn:E2.
    + apply halted_held. reflexivity.
    + rewrite orb_false_r in E. apply negb_true_iff in E.
      apply halted_held. exact E.
  - intros _. exists (nextHandle s). split; [reflexivity |].
    unfold outstanding. cbn. rewrite map_app.
    apply elem_of_app. right. apply elem_of_cons. left. reflexivity.
Qed.

Lemma play_held (s : Engine) :
  held_step_inv s -> held_step_inv (state_after play s).
Proof.
  intros H. rewrite play_state.
  destruct (len (words s) =? 0); [exact H | apply tick_held].
Qed.

Lemma pause_held (s : Engine) : held_step_inv (state_after pause s).
Proof.
  apply halted_held. rewrite pause_state.
  match goal with |- context [state_after _clearTimer ?x] =>
    destruct (clearTimer_flags x) as [-> _] end. reflexivity.
Qed.

Lemma step_held (a : Action) (s s' : Engine) (t : list Invocation) :
  held_step_inv s -> exec a s = Some (s', t) -> held_step_inv s'.
Proof.
  intros Hinv Hex.
  destruct a; cbn [exec] in Hex;
    try (destruct (bool_decide _); [| discriminate]);
    injection Hex as <- _.
  - apply halted_held. rewrite load_state.
    match goal with |- context [state_after _clearTimer ?x] =>
      destruct (clearTimer_flags x) as [-> _] end. reflexivity.
  - apply play_held, Hinv.
  - apply pause_held.
  - rewrite togglePlay_state.
    destruct (isPlaying s); [apply pause_held | apply play_held, Hinv].
  - rewrite rewind_state. eapply held_frame; [| | | exact Hinv]; reflexivity.
  - rewrite skip_state. eapply held_frame; [| | | exact Hinv]; reflexivity.
  - rewrite jumpTo_state. eapply held_frame; [| | | exact Hinv]; reflexivity.
  - rewrite setSpeed_state. exact Hinv.
  - exact Hinv.
  - apply halted_held. rewrite stop_state.
    match goal with |- context [state_after _clearTimer ?x] =>
      destruct (clearTimer_flags x) as [-> _] end. reflexivity.
  - exact Hinv.
  - destruct (on_off_frame event cb s) as [[L ->] _]. exact Hinv.
  - destruct (on_off_frame event cb s) as [_ [L ->]]. exact Hinv.
  - rewrite fire_state. apply tick_held.
Qed.

(** X6. Playback never stalls silently: in every reachable state, whatever
    the calls, if the engine is playing then the scheduled step whose handle
    it holds is still queued with the host. *)
Theorem playing_has_step (s : Engine) :
  reachable any_call s -> isPlaying s = true ->
  ∃ id, timerId s = Some id ∧ id ∈ outstanding s.
Proof.
  apply (reachable_invariant any_call held_step_inv).
  - apply halted_held. reflexivity.
  - apply step_held.
Qed.

Lemma playing_has_step_witness :
  isPlaying playing_fox = true
  ∧ ∃ id, timerId playing_fox = Some id ∧ id ∈ outstanding playing_fox.
Proof.
  split; [reflexivity |].
  apply (playing_has_step playing_fox); [| reflexivity].
  unfold playing_fox.
  eapply (reach_step _ (state_after (load fox_sequence None) constructor) APlay);
    [| exact I | reflexivity].
  eapply (reach_step _ constructor (ALoad fox_sequence None));
    [apply reach_init | exact I | reflexivity].
Defined.

Lemma clearTimer_config (s : Engine) :
  wpm (state_after _clearTimer s) = wpm s
  ∧ chunkSize (state_after _clearTimer s) = chunkSize s.
Proof. rewrite clearTimer_state. destruct (timerId s); split; reflexivity. Qed.

Lemma tick_config (s : Engine) :
  wpm (state_after _tick s) = wpm s
  ∧ chunkSize (state_after _tick s) = chunkSize s.
Proof. rewrite tick_state. split_ifs; split; reflexivity. Qed.

Lemma config_frame (s s' : Engine) :
  wpm s' = wpm s ∧ chunkSize s' = chunkSize s -> config_inv s -> config_inv s'.
Proof. unfold config_inv. intros [-> ->]. exact id. Qed.

Lemma play_config (s : Engine) :
  wpm (state_after play s) = wpm s
  ∧ chunkSize (state_after play s) = chunkSize s.
Proof.
  rewrite play_state. destruct (len (words s) =? 0); [split; reflexivity |].
  match goal with |- context [state_after _tick ?x] =>
    destruct (tick_config x) as [-> ->] end.
  destruct (currentIndex s >=? len (words s)); split; reflexivity.
Qed.

Lemma pause_config (s : Engine) :
  wpm (state_after pause s) = wpm s
  ∧ chunkSize (state_after pause s) = chunkSize s.
Proof.
  rewrite pause_state.
  match goal with |- context [state_after _clearTimer ?x] =>
    destruct (clearTimer_config x) as [-> ->] end.
  split; reflexivity.
Qed.

Lemma step_config (a : Action) (s s' : Engine) (t : list Invocation) :
  config_inv s -> exec a s = Some (s', t) -> config_inv s'.
Proof.
  intros Hinv Hex.
  destruct a; cbn [exec] in Hex;
    try (destruct (bool_decide _); [| discriminate]);
    injection Hex as <- _.
  - eapply config_frame; [| exact Hinv]. rewrite load_state.
    match goal with |- context [state_after _clearTimer ?x] =>
      destruct (clearTimer_config x) as [-> ->] end.
    split; reflexivity.
  - eapply config_frame; [apply play_config | exact Hinv].
  - eapply config_frame; [apply pause_config | exact Hinv].
  - eapply config_frame; [| exact Hinv]. rewrite togglePlay_state.
    destruct (isPlaying s); [apply pause_config | apply play_config].
  - eapply config_frame; [| exact Hinv]. rewrite rewind_state. split; reflexivity.
  - eapply config_frame; [| exact Hinv]. rewrite skip_state. split; reflexivity.
  - eapply config_frame; [| exact Hinv]. rewrite jumpTo_state. split; reflexivity.
  - rewrite setSpeed_state. destruct Hinv as [_ Hc]. split; [cbn; lia | exact Hc].
  - rewrite setChunkSize_state. destruct Hinv as [Hr _]. split; [exact Hr | cbn; lia].
  - eapply config_frame; [| exact Hinv]. rewrite stop_state.
    match goal with |- context [state_after _clearTimer ?x] =>
      destruct (clearTimer_config x) as [-> ->] end.
    split; reflexivity.
  - exact Hinv.
  - destruct (on_off_frame event cb s) as [[L ->] _]. exact Hinv.
  - destruct (on_off_frame event cb s) as [_ [L ->]]. exact Hinv.
  - eapply config_frame; [| exact Hinv]. rewrite fire_state.
    match goal with |- context [state_after _tick ?x] =>
      destruct (tick_config x) as [-> ->] end.
    split; reflexivity.
Qed.

(** X7. In every reachable state, whatever the arguments of the calls made
    so far, the stored rate lies within [50, 1500] and the stored chunk size
    within [1, 3]. *)
Theorem configuration_in_range (s : Engine) :
  reachable any_call s ->
  50 <= wpm s <= 1500 ∧ 1 <= chunkSize s <= 3.
Proof.
  apply (reachable_invariant any_call config_inv).
  - unfold config_inv. cbn. lia.
  - apply step_config.
Qed.

Lemma configuration_in_range_witness :
  reachable any_call (state_after (setSpeed 99999) constructor)
  ∧ 50 <= wpm (state_after (setSpeed 99999) constructor) <= 1500.
Proof.
  assert (R : reachable any_call (state_after (setSpeed 99999) constructor)).
  { eapply (reach_step _ constructor (ASetSpeed 99999));
      [apply reach_init | exact I | reflexivity]. }
  split; [exact R |].
  exact (proj1 (configuration_in_range _ R)).
Defined.

(* ===================================================================== *)
(** * Range of the delay                                                   *)
(* ===================================================================== *)

Lemma lengthFactor_in (n : Z) : In (lengthFactor n) lengthFactors.
Proof.
  unfold lengthFactor, lengthFactors.
  destruct (n <=? 3); [| destruct (8 <=? n)]; cbn; auto.
Qed.

Lemma punctuationBonus_in (c : option N) :
  In (punctuationBonus c) punctuationBonuses.
Proof.
  unfold punctuationBonus, punctuationBonuses.
  destruct c as [c|]; [| cbn; auto].
  repeat (match goal with
          | |- context [bool_decide ?P] => destruct (bool_decide P)
          end); cbn; auto.
Qed.

Lemma paragraphBonus_in (w : list N) : In (paragraphBonus w) paragraphBonuses.
Proof.
  unfold paragraphBonus, paragraphBonuses.
  destruct (bool_decide _); cbn; auto.
Qed.

Lemma rates_in (r : Z) : 50 <= r <= 1500 -> In r rates.
Proof.
  intros Hr. unfold rates. apply in_map_iff. exists (Z.to_nat r).
  split; [lia | apply in_seq; lia].
Qed.

Lemma calculateDelay_parts (s : Engine) (w : list N) :
  _calculateDelay s w
  = delay_from (base_delay (wpm s)) (lengthFactor (strippedLength w))
      (punctuationBonus (last w)) (paragraphBonus w).
Proof. rewrite calculateDelay_unfold. reflexivity. Qed.

Lemma full_stop_parts (w : list N) :
  strippedLength (w ++ js ".") = strippedLength w
  ∧ punctuationBonus (last (w ++ js ".")) = lit_1_0
  ∧ paragraphBonus (w ++ js ".") = paragraphBonus w.
Proof.
  split; [| split].
  - unfold strippedLength. rewrite List.filter_app. cbn. rewrite app_nil_r.
    reflexivity.
  - cbn [js]. rewrite last_snoc. reflexivity.
  - unfold paragraphBonus.
    assert (H : newline ∈ w ++ js "." ∨ pilcrow ∈ w ++ js "."
                ↔ newline ∈ w ∨ pilcrow ∈ w).
    { rewrite !elem_of_app. cbn [js].
      rewrite !elem_of_cons, !elem_of_nil.
      unfold newline, pilcrow. cbn.
      intuition discriminate. }
    rewrite (bool_decide_ext _ _ H). reflexivity.
Qed.

Lemma round_round_Z (x : Number.t) (n : Z) :
  round_Z x = Some n -> Math.round x = Number.of_Z n.
Proof.
  destruct x as [| | |[] m [|p|p]]; try discriminate.
  cbn [round_Z]. intros [= <-].
  rewrite Z.shiftr_div_pow2 by lia. reflexivity.
Qed.

Lemma delays_ok_at (lo hi : Z) (rs : list Z) (r : Z) (L b P : Number.t) :
  delays_ok lo hi rs = true ->
  In r rs -> In L lengthFactors -> In b punctuationBonuses ->
  In P paragraphBonuses ->
  ∃ n top,
    round_Z (Number.mul (base_delay r) (Number.add (Number.add L b) P)) = Some n
    ∧ round_Z (Number.mul (base_delay r)
                          (Number.add (Number.add L lit_1_0) P)) = Some top
    ∧ lo <= n <= top ∧ top <= hi.
Proof.
  unfold delays_ok. cbv zeta. intros H Hr HL Hb HP.
  rewrite forallb_forall in H. specialize (H r Hr).
  rewrite forallb_forall in H.
  specialize (H (Number.add (Number.add L lit_1_0) P,
                 map (fun b => Number.add (Number.add L b) P) minorBonuses)).
  unfold row_ok in H. cbn [fst snd] in H.
  destruct (round_Z (Number.mul (base_delay r)
                                (Number.add (Number.add L lit_1_0) P)))
    as [top|] eqn:Etop.
  2:{ exfalso. enough (false = true) by discriminate. apply H.
      unfold modifier_rows. apply in_flat_map. exists L. split; [exact HL |].
      apply in_map_iff. exists P. split; [reflexivity | exact HP]. }
  assert (Hrow : (lo <=? top) && (top <=? hi)
                 && forallb (fun m =>
                      match round_Z (Number.mul (base_delay r) m) with
                      | Some n => (lo <=? n) && (n <=? top)
                      | None => false
                      end)
                      (map (fun b => Number.add (Number.add L b) P)
                           minorBonuses) = true).
  { apply H. unfold modifier_rows. apply in_flat_map. exists L.
    split; [exact HL |]. apply in_map_iff. exists P.
    split; [reflexivity | exact HP]. }
  clear H. apply andb_true_iff in Hrow as [Hb0 Hall].
  apply andb_true_iff in Hb0 as [Hlo Hhi].
  apply Z.leb_le in Hlo, Hhi.
  assert (Hcases : b = lit_1_0 ∨ In b minorBonuses).
  { unfold punctuationBonuses in Hb. unfold minorBonuses. cbn [In] in *.
    destruct Hb as [H|[H|[H|[H|[]]]]]; auto. }
  destruct Hcases as [-> | Hminor].
  - exists top, top. rewrite Etop. repeat split; try reflexivity; lia.
  - rewrite forallb_forall in Hall.
    specialize (Hall (Number.add (Number.add L b) P)
                     (in_map (fun b => Number.add (Number.add L b) P) _ _ Hminor)).
    destruct (round_Z (Number.mul (base_delay r)
                                  (Number.add (Number.add L b) P)))
      as [n|]; [| discriminate].
    apply andb_true_iff in Hall as [Hn1 Hn2]. apply Z.leb_le in Hn1, Hn2.
    exists n, top. repeat split; try reflexivity; lia.
Qed.

Lemma delay_table : delays_ok 32 4440 rates = true.
Proof. vm_compute. reflexivity. Qed.

Lemma delay_pair (s : Engine) (w : list N) :
  reachable any_call s ->
  ∃ n top,
    _calculateDelay s w = Number.of_Z n
    ∧ _calculateDelay s (w ++ js ".") = Number.of_Z top
    ∧ 32 <= n <= top ∧ top <= 4440.
Proof.
  intros Hr. apply reachable_rate in Hr.
  rewrite !calculateDelay_parts.
  destruct (full_stop_parts w) as (-> & -> & ->).
  destruct (delays_ok_at 32 4440 rates (wpm s) _ _ _ delay_table
              (rates_in _ Hr) (lengthFactor_in (strippedLength w))
              (punctuationBonus_in (last w)) (paragraphBonus_in w))
    as (n & top & Hn & Htop & Hle & Hhi).
  exists n, top. unfold delay_from.
  rewrite (round_round_Z _ _ Hn), (round_round_Z _ _ Htop).
  repeat split; try reflexivity; lia.
Qed.

(** X8. In every reachable state the delay computed for any chunk is a whole
    number of milliseconds between 32 and 4440: the timer is never armed
    with NaN, an infinity, zero or a negative delay. *)
Theorem delay_within_bounds (s : Engine) (w : list N) :
  reachable any_call s ->
  ∃ n, _calculateDelay s w = Number.of_Z n ∧ 32 <= n <= 4440.
Proof.
  intros Hr. destruct (delay_pair s w Hr) as (n & top & Hn & _ & Hle & Hhi).
  exists n. split; [exact Hn | lia].
Qed.

Lemma delay_within_bounds_witness :
  reachable any_call constructor
  ∧ ∃ n, _calculateDelay constructor (js "cat.") = Number.of_Z n
         ∧ 32 <= n <= 4440.
Proof.
  split; [apply reach_init |].
  apply (delay_within_bounds constructor (js "cat.")). apply reach_init.
Defined.

(** X9. In every reachable state, appending a full stop to a chunk never
    shortens its display time: both delays are whole numbers of
    milliseconds and the one with the full stop is at least the other.  The
    sentence pause is the largest of the punctuation bonuses and replaces
    whatever bonus the chunk had. *)
Theorem full_stop_never_shortens (s : Engine) (w : list N) :
  reachable any_call s ->
  ∃ n m, _calculateDelay s w = Number.of_Z n
         ∧ _calculateDelay s (w ++ js ".") = Number.of_Z m
         ∧ n <= m.
Proof.
  intros Hr. destruct (delay_pair s w Hr) as (n & top & Hn & Htop & Hle & _).
  exists n, top. repeat split; [exact Hn | exact Htop | lia].
Qed.

Lemma full_stop_never_shortens_witness :
  reachable any_call constructor
  ∧ ∃ n m, _calculateDelay constructor (js "cat,") = Number.of_Z n
           ∧ _calculateDelay constructor (js "cat," ++ js ".") = Number.of_Z m
           ∧ n <= m.
Proof.
  split; [apply reach_init |].
  apply (full_stop_never_shortens constructor (js "cat,")). apply reach_init.
Defined.

(* ===================================================================== *)
(** * The displayed chunk                                                  *)
(* ===================================================================== *)

Lemma gatherChunk_window (ws : list (list N)) (index : Z) (n : nat) (i : Z) :
  0 <= index + i ->
  gatherChunk ws index i n
  = map Some (take n (drop (Z.to_nat (index + i)) ws)).
Proof.
  revert i. induction n as [|n IH]; intros i Hi; [reflexivity |].
  cbn [gatherChunk]. unfold len.
  destruct (Z.ltb_spec (index + i) (Z.of_nat (length ws))) as [Hlt|Hge].
  - rewrite at_index_nonneg by lia.
    destruct (ws !! Z.to_nat (index + i)) as [x|] eqn:E.
    + rewrite (drop_S _ _ _ E). cbn [take map]. f_equal.
      rewrite IH by lia. do 3 f_equal. lia.
    + apply lookup_ge_None in E. lia.
  - rewrite drop_ge by lia. reflexivity.
Qed.

Lemma displayWord_chunk_text (s : Engine) :
  0 <= currentIndex s ->
  displayWord s = chunk_text (words s) (chunkSize s) (currentIndex s).
Proof.
  intros Hi. unfold displayWord, chunk_text.
  rewrite gatherChunk_window by lia. do 4 f_equal. lia.
Qed.

(** X10. At a position that is not negative, the chunk the engine displays
    is the next [chunkSize] words of the sequence joined by single spaces,
    fewer at the tail and none beyond the end: the gathering loop never
    reads outside the sequence, and the chunk holds min(chunkSize, length -
    position) words. *)
Theorem displayWord_window (s : Engine) :
  0 <= currentIndex s ->
  displayWord s
  = join (map Some (take (Z.to_nat (chunkSize s))
                         (drop (Z.to_nat (currentIndex s)) (words s))))
  ∧ len (take (Z.to_nat (chunkSize s))
              (drop (Z.to_nat (currentIndex s)) (words s)))
    = Z.max 0 (Z.min (chunkSize s) (len (words s) - currentIndex s)).
Proof.
  intros Hi. split; [apply displayWord_chunk_text, Hi |].
  unfold len. rewrite length_take, length_drop. lia.
Qed.

Lemma displayWord_window_witness :
  0 <= currentIndex tail_state
  ∧ displayWord (set_currentIndex 3 tail_state) = js "fox jumped.".
Proof.
  split; [vm_compute; discriminate |].
  rewrite (proj1 (displayWord_window (set_currentIndex 3 tail_state)
                    ltac:(vm_compute; discriminate))).
  vm_compute. reflexivity.
Defined.

(* ===================================================================== *)
(** * Autoplay                                                             *)
(* ===================================================================== *)

Lemma deliver_app (s : Engine) (e1 e2 : list (string * Payload)) :
  deliver s (e1 ++ e2) = deliver s e1 ++ deliver s e2.
Proof. unfold deliver. apply flat_map_app. Qed.

Lemma deliver_listeners (s1 s2 : Engine) (events : list (string * Payload)) :
  _listeners s1 = _listeners s2 -> deliver s1 events = deliver s2 events.
Proof. unfold deliver, registrations. intros ->. reflexivity. Qed.

Lemma progressData_at (s : Engine) :
  _progressData s = progress_at (words s) (wpm s) (currentIndex s).
Proof. reflexivity. Qed.

Lemma tick_trace (s : Engine) :
  trace_of _tick s
  = deliver s
      (if negb (isPlaying s) || (currentIndex s >=? len (words s)) then
         if currentIndex s >=? len (words s)
         then [("end"%string, Undefined)] else []
       else [("word"%string, wordPayload s);
             ("progress"%string, ProgressData (_progressData s))]).
Proof.
  unfold deliver, registrations. run_method.
  destruct (negb (isPlaying s) || (currentIndex s >=? len (words s)));
    [destruct (currentIndex s >=? len (words s)) |];
    cbn [fst snd flat_map app default from_option id];
    repeat match goal with
           | |- context [_listeners s !! ?e] => destruct (_listeners s !! e)
           end;
    cbn [fst snd flat_map app map default from_option id];
    rewrite ?app_nil_r; reflexivity.
Qed.

Lemma play_trace (s : Engine) :
  trace_of play s
  = if len (words s) =? 0 then []
    else deliver s [("play"%string, Undefined)]
         ++ trace_of _tick
              (set_isPaused false
                 (set_isPlaying true
                    (if currentIndex s >=? len (words s)
                     then set_currentIndex 0 s else s))).
Proof.
  unfold deliver, registrations. cbn [flat_map fst snd]. run_method.
  split_ifs; cbn [fst snd app map default from_option id];
    rewrite ?app_nil_r; reflexivity.
Qed.

Lemma fire_held_step (s : Engine) (id : positive) (d : Number.t) :
  scheduled s = [(id, d)] ->
  exec (AFire id) s
  = Some (state_after _tick (set_scheduled [] s),
          trace_of _tick (set_scheduled [] s)).
Proof.
  intros Hs. cbn [exec]. unfold outstanding. rewrite Hs. cbn [map fst].
  rewrite bool_decide_eq_true_2 by (apply elem_of_cons; left; reflexivity).
  rewrite fire_state, Hs. cbn [List.filter fst]. rewrite Pos.eqb_refl.
  cbn [negb]. f_equal. f_equal.
  unfold trace_of, fire, bind, clearTimeout, modify. rewrite Hs.
  cbn [List.filter fst]. rewrite Pos.eqb_refl. cbn [negb].
  destruct (_tick (set_scheduled [] s)) as [[u s'] t]. reflexivity.
Qed.

Lemma tick_at_end (s : Engine) :
  len (words s) <= currentIndex s ->
  state_after _tick s = set_isPlaying false s
  ∧ trace_of _tick s = deliver s [("end"%string, Undefined)].
Proof.
  intros H. rewrite tick_state, tick_trace.
  replace (currentIndex s >=? len (words s)) with true
    by (symmetry; apply Z.geb_le; lia).
  rewrite orb_true_r. split; reflexivity.
Qed.

Lemma tick_shows_chunk (s : Engine) :
  isPlaying s = true -> 0 <= currentIndex s < len (words s) ->
  state_after _tick s
  = set_timerId (Some (nextHandle s))
      (set_nextHandle (Pos.succ (nextHandle s))
         (set_scheduled
            (scheduled s ++ [(nextHandle s, _calculateDelay s (displayWord s))])
            (set_currentIndex (currentIndex s + chunkSize s) s)))
  ∧ trace_of _tick s
    = deliver s
        [("word"%string,
          WordData (chunk_text (words s) (chunkSize s) (currentIndex s))
                   (currentIndex s)
                   (splitAtORP (chunk_text (words s) (chunkSize s)
                                           (currentIndex s))));
         ("progress"%string,
          ProgressData (progress_at (words s) (wpm s) (currentIndex s)))].
Proof.
  intros Hp Hi. rewrite tick_state, tick_trace, Hp.
  replace (currentIndex s >=? len (words s)) with false
    by (symmetry; rewrite Z.geb_leb; apply Z.leb_gt; lia).
  cbn [negb orb]. split; [reflexivity |].
  unfold wordPayload. rewrite displayWord_chunk_text by lia.
  reflexivity.
Qed.

Lemma autoplay_fire (n : nat) (s : Engine) (id : positive) (d : Number.t) :
  timerId s = Some id -> scheduled s = [(id, d)] ->
  autoplay (S n) s
  = (fst (autoplay n (state_after _tick (set_scheduled [] s))),
     trace_of _tick (set_scheduled [] s)
     ++ snd (autoplay n (state_after _tick (set_scheduled [] s)))).
Proof.
  intros Ht Hs. cbn [autoplay]. rewrite Ht, (fire_held_step s id d Hs).
  destruct (autoplay n _) as [s2 t2]. reflexivity.
Qed.

Lemma autoplay_chunks (s0 : Engine) (ws : list (list N)) (m : nat) :
  1 <= chunkSize s0 ->
  ∀ (k : nat) (s : Engine),
    mid_playback s0 ws k s ->
    len ws <= Z.of_nat (k + m) * chunkSize s0 ->
    (m = 0%nat ∨ Z.of_nat (k + m - 1) * chunkSize s0 < len ws) ->
    snd (autoplay (S m) s)
    = deliver s0
        (flat_map (chunk_events ws (chunkSize s0) (wpm s0)) (seq k m)
         ++ [("end"%string, Undefined)])
    ∧ isPlaying (fst (autoplay (S m) s)) = false
    ∧ outstanding (fst (autoplay (S m) s)) = []
    ∧ currentIndex (fst (autoplay (S m) s)) = Z.of_nat (k + m) * chunkSize s0.
Proof.
  intros Hc. induction m as [|m IH];
    intros k s (Hw & Hcs & Hr & Hl & Hp & Hi & id & d & Hs & Ht) Hlen Hlast.
  - (* the position is past the end: the held step ends the playback *)
    rewrite (autoplay_fire 0 s id d Ht Hs).
    cbn [autoplay fst snd]. rewrite app_nil_r.
    set (s1 := set_scheduled [] s).
    assert (Hw1 : words s1 = ws) by exact Hw.
    assert (Hi1 : currentIndex s1 = Z.of_nat k * chunkSize s0) by exact Hi.
    destruct (tick_at_end s1) as [-> ->].
    { rewrite Hw1, Hi1. rewrite Nat.add_0_r in Hlen. lia. }
    split; [apply deliver_listeners; exact Hl |].
    rewrite Nat.add_0_r. repeat split; try reflexivity. exact Hi.
  - (* one more chunk is shown, then the rest *)
    assert (Hk : Z.of_nat k * chunkSize s0 < len ws).
    { destruct Hlast as [? | Hlast]; [lia |].
      replace (k + S m - 1)%nat with (k + m)%nat in Hlast by lia. nia. }
    rewrite (autoplay_fire (S m) s id d Ht Hs).
    set (s1 := set_scheduled [] s).
    assert (Hw1 : words s1 = ws) by exact Hw.
    assert (Hc1 : chunkSize s1 = chunkSize s0) by exact Hcs.
    assert (Hr1 : wpm s1 = wpm s0) by exact Hr.
    assert (Hl1 : _listeners s1 = _listeners s0) by exact Hl.
    assert (Hi1 : currentIndex s1 = Z.of_nat k * chunkSize s0) by exact Hi.
    destruct (tick_shows_chunk s1) as [Hst Htr]; [exact Hp | rewrite Hw1, Hi1; lia |].
    assert (Hmid : mid_playback s0 ws (S k) (state_after _tick s1)).
    { rewrite Hst. unfold mid_playback.
      cbn [words chunkSize wpm _listeners isPlaying currentIndex scheduled
           timerId set_timerId set_nextHandle set_scheduled set_currentIndex].
      rewrite Hi1, Hc1.
      split; [exact Hw1 |]. split; [reflexivity |]. split; [exact Hr1 |].
      split; [exact Hl1 |]. split; [exact Hp |]. split; [lia |].
      eexists _, _. split; reflexivity. }
    destruct (IH (S k) _ Hmid) as (Ht' & Hp' & Ho' & Hi').
    { replace (S k + m)%nat with (k + S m)%nat by lia. exact Hlen. }
    { destruct m; [left; reflexivity | right].
      destruct Hlast as [? | Hlast]; [lia |].
      replace (S k + S m - 1)%nat with (k + S (S m) - 1)%nat by lia.
      exact Hlast. }
    cbn [fst snd].
    replace (k + S m)%nat with (S k + m)%nat by lia.
    split; [| repeat split; assumption].
    rewrite Ht', Htr.
    change (seq k (S m)) with (k :: seq (S k) m).
    cbn [flat_map].
    rewrite <- app_assoc,
      (deliver_app s0 (chunk_events ws (chunkSize s0) (wpm s0) k)).
    f_equal.
    rewrite (deliver_listeners s1 s0) by exact Hl1.
    unfold chunk_events. cbv zeta. rewrite Hw1, Hc1, Hr1, Hi1. reflexivity.
Qed.

Lemma deliver_cons (s : Engine) (e : string * Payload)
      (es : list (string * Payload)) :
  deliver s (e :: es) = deliver s [e] ++ deliver s es.
Proof. unfold deliver. cbn [flat_map]. rewrite app_nil_r. reflexivity. Qed.

Lemma loaded_fields (s : Engine) (ws : list (list N)) :
  outstanding s = [] -> ws ≠ [] ->
  let s0 := state_after (load ws (Some 0)) s in
  words s0 = ws ∧ currentIndex s0 = 0 ∧ chunkSize s0 = chunkSize s
  ∧ wpm s0 = wpm s ∧ _listeners s0 = _listeners s ∧ scheduled s0 = [].
Proof.
  intros Ho Hne. apply outstanding_nil in Ho. apply len_nonempty in Hne.
  cbv zeta. rewrite load_state, clearTimer_state.
  cbn [timerId set_isPaused set_isPlaying set_currentIndex set_words].
  destruct (timerId s);
    cbn [words currentIndex chunkSize wpm _listeners scheduled
         set_timerId set_scheduled set_isPaused set_isPlaying
         set_currentIndex set_words default from_option id];
    rewrite ?Ho; cbn [List.filter];
    repeat split; try reflexivity; lia.
Qed.

(** X11. A playback runs through the whole sequence: after [load(ws, 0)]
    and [play()] on an engine with no step pending, letting the engine's own
    timer fire [n] times, where [n] is the number of chunks, calls the
    listeners for [play], then for the word and progress events of the
    chunks at positions 0, c, 2c, ... in order, each chunk being the next
    [c] words joined by spaces, and finally for [end]; the engine is then
    not playing, no step is pending and the position is [n * c]. *)
Theorem autoplay_presents_every_chunk (s : Engine) (ws : list (list N))
        (n : nat) :
  outstanding s = [] -> ws ≠ [] -> 1 <= chunkSize s ->
  (Z.of_nat n - 1) * chunkSize s < len ws <= Z.of_nat n * chunkSize s ->
  let s0 := state_after (load ws (Some 0)) s in
  let s1 := state_after play s0 in
  trace_of play s0 ++ snd (autoplay n s1)
  = deliver s (playback_events ws (chunkSize s) (wpm s) n)
  ∧ isPlaying (fst (autoplay n s1)) = false
  ∧ outstanding (fst (autoplay n s1)) = []
  ∧ currentIndex (fst (autoplay n s1)) = Z.of_nat n * chunkSize s.
Proof.
  intros Ho Hne Hc Hn. cbv zeta.
  destruct (loaded_fields s ws Ho Hne) as (Hw & Hi & Hcs & Hr & Hl & Hs).
  set (s0 := state_after (load ws (Some 0)) s) in *.
  pose proof (len_nonempty _ Hne) as Hlen.
  destruct n as [|m]; [lia |].
  set (p0 := set_isPaused false (set_isPlaying true s0)).
  assert (Hplay : state_after play s0 = state_after _tick p0
                  ∧ trace_of play s0
                    = deliver s0 [("play"%string, Undefined)]
                      ++ trace_of _tick p0).
  { rewrite play_state, play_trace, Hw, Hi.
    replace (len ws =? 0) with false by (symmetry; apply Z.eqb_neq; lia).
    replace (0 >=? len ws) with false
      by (symmetry; rewrite Z.geb_leb; apply Z.leb_gt; lia).
    split; reflexivity. }
  destruct Hplay as [Hst Htr].
  assert (Hw0 : words p0 = ws) by exact Hw.
  assert (Hi0 : currentIndex p0 = 0) by exact Hi.
  assert (Hc0 : chunkSize p0 = chunkSize s) by exact Hcs.
  assert (Hr0 : wpm p0 = wpm s) by exact Hr.
  assert (Hl0 : _listeners p0 = _listeners s) by exact Hl.
  assert (Hs0 : scheduled p0 = []) by exact Hs.
  destruct (tick_shows_chunk p0) as [Hst1 Htr1];
    [reflexivity | rewrite Hw0, Hi0; lia |].
  assert (Hmid : mid_playback s ws 1 (state_after play s0)).
  { rewrite Hst, Hst1. unfold mid_playback.
    cbn [words chunkSize wpm _listeners isPlaying currentIndex scheduled
         timerId set_timerId set_nextHandle set_scheduled set_currentIndex].
    rewrite Hi0, Hc0, Hs0.
    split; [exact Hw0 |]. split; [reflexivity |]. split; [exact Hr0 |].
    split; [exact Hl0 |]. split; [reflexivity |]. split; [lia |].
    eexists _, _. split; reflexivity. }
  destruct (autoplay_chunks s ws m Hc 1%nat _ Hmid) as (Ht' & Hp' & Ho' & Hi').
  { replace (1 + m)%nat with (S m) by lia. lia. }
  { destruct m; [left; reflexivity | right].
    replace (1 + S m - 1)%nat with (S m) by lia. lia. }
  replace (1 + m)%nat with (S m) in Hi' by lia.
  split; [| repeat split; assumption].
  rewrite Ht', Htr, Htr1. unfold playback_events.
  change (seq 0 (S m)) with (0%nat :: seq 1 m). cbn [flat_map].
  rewrite (deliver_cons s),
    <- (app_assoc (chunk_events ws (chunkSize s) (wpm s) 0)),
    (deliver_app s (chunk_events ws (chunkSize s) (wpm s) 0)).
  rewrite <- (app_assoc (deliver s0 _)).
  rewrite (deliver_listeners s0 s) by exact Hl.
  rewrite (deliver_listeners p0 s) by exact Hl0.
  do 2 f_equal.
  unfold chunk_events. cbv zeta. rewrite Hw0, Hc0, Hr0, Hi0. reflexivity.
Qed.

Lemma autoplay_presents_every_chunk_witness :
  let s := state_after (setChunkSize 3) constructor in
  outstanding s = [] ∧ fox_sequence ≠ [] ∧ 1 <= chunkSize s
  ∧ currentIndex
      (fst (autoplay 2
              (state_after play (state_after (load fox_sequence (Some 0)) s))))
    = 6.
Proof.
  cbv zeta. split; [reflexivity |]. split; [discriminate |].
  split; [vm_compute; discriminate |].
  exact (proj2 (proj2 (proj2
    (autoplay_presents_every_chunk
       (state_after (setChunkSize 3) constructor) fox_sequence 2
       eq_refl ltac:(discriminate) ltac:(vm_compute; discriminate)
       ltac:(vm_compute; split; [reflexivity | discriminate]))))).
Defined.


(* ===================================================================== *)
(** * Subscriptions                                                        *)
(* ===================================================================== *)

Lemma without_fresh (cb : nat) (cbs : list nat) :
  cb ∉ cbs -> without cb (cbs ++ [cb]) = cbs.
Proof.
  intros Hn. unfold without. rewrite List.filter_app. cbn [List.filter].
  rewrite Nat.eqb_refl. cbn [negb]. rewrite app_nil_r.
  induction cbs as [|c cbs IH]; [reflexivity |].
  apply not_elem_of_cons in Hn as [Hne Hn].
  cbn [List.filter]. destruct (Nat.eqb_spec c cb) as [->|_]; [congruence |].
  cbn [negb]. f_equal. apply IH, Hn.
Qed.

(** X12. For an event name that is not the name of a member of
    [Object.prototype], subscribing and then unsubscribing a callback that
    was not yet registered under the event restores the registrations of
    every event; the table itself keeps an entry for the event (an empty
    array where there was none before). *)
Theorem subscribe_unsubscribe_round_trip (s : Engine) (event e' : string)
        (cb : nat) :
  inherited event = false ->
  cb ∉ registrations s event ->
  registrations (state_after (off event cb) (state_after (on event cb) s)) e'
  = registrations s e'
  ∧ is_Some (_listeners
               (state_after (off event cb) (state_after (on event cb) s))
             !! event).
Proof.
  intros Hev Hn. split.
  - rewrite off_registrations, on_registrations by exact Hev.
    destruct (decide (e' = event)) as [->|]; [| reflexivity].
    apply without_fresh, Hn.
  - unfold state_after. rewrite on_returns by exact Hev.
    rewrite off_returns by exact Hev.
    cbn [fst snd set_listeners _listeners]. rewrite lookup_insert_eq.
    cbn [set_listeners _listeners]. rewrite lookup_insert_eq.
    eexists. reflexivity.
Qed.

Lemma subscribe_unsubscribe_round_trip_witness :
  inherited "word" = false
  ∧ (7%nat ∉ registrations constructor "word")
  ∧ registrations
      (state_after (off "word" 7%nat) (state_after (on "word" 7%nat) constructor))
      "word"
    = registrations constructor "word".
Proof.
  assert (H : 7%nat ∉ registrations constructor "word")
    by (apply not_elem_of_nil).
  split; [reflexivity |]. split; [exact H |].
  exact (proj1 (subscribe_unsubscribe_round_trip constructor "word" "word"
                  7%nat eq_refl H)).
Defined.

(* ===================================================================== *)
(** * Tokenizer                                                            *)
(* ===================================================================== *)

Lemma split_from_solid (text piece : list N) (gap : bool) :
  Forall (fun c => is_space c = false) piece ->
  Forall (Forall (fun c => is_space c = false)) (split_from piece gap text).
Proof.
  revert piece gap. induction text as [|c rest IH]; intros piece gap Hp;
    cbn [split_from].
  - constructor; [exact Hp | constructor].
  - destruct (is_space c) eqn:Ec.
    + destruct gap; [apply IH; constructor |].
      constructor; [exact Hp | apply IH; constructor].
    + apply IH. apply Forall_app. split; [exact Hp |].
      constructor; [exact Ec | constructor].
Qed.

(** X13. Every token is a non-empty word without any white space
    character, whatever the text: the word sequence handed to the engine
    never holds an empty string, a space or a line break. *)
Theorem tokens_are_solid (text w : list N) :
  In w (_tokenize text) -> solid_word w.
Proof.
  unfold _tokenize. intros H. apply filter_In in H as [Hin Hlen].
  split.
  - intros ->. discriminate.
  - pose proof (split_from_solid (replace_crlf text) [] false (Forall_nil_2 _))
      as Hall.
    rewrite Forall_forall in Hall. apply Hall, list_elem_of_In, Hin.
Qed.

Lemma tokens_are_solid_witness :
  In (js "quick.") (_tokenize (js " A  quick. "))
  ∧ solid_word (js "quick.").
Proof.
  assert (H : In (js "quick.") (_tokenize (js " A  quick. ")))
    by (vm_compute; right; left; reflexivity).
  split; [exact H | exact (tokens_are_solid _ _ H)].
Defined.

Lemma split_replace_crlf (text : list N) :
  (∀ piece gap,
     split_from piece gap (replace_crlf text) = split_from piece gap text)
  ∧ (∀ c piece gap,
       split_from piece gap (replace_crlf (c :: text))
       = split_from piece gap (c :: text)).
Proof.
  induction text as [|c' rest [IHa IHb]].
  - split; reflexivity.
  - split; [intros piece gap; apply IHb |].
    intros c piece gap.
    change (replace_crlf (c :: c' :: rest))
      with (if N.eqb c 13 && N.eqb c' 10 then 10%N :: replace_crlf rest
            else c :: replace_crlf (c' :: rest)).
    destruct (N.eqb_spec c 13) as [->|Hc]; cbn [andb].
    + destruct (N.eqb_spec c' 10) as [->|Hc'].
      * cbn [split_from]. change (is_space 10) with true.
        change (is_space 13) with true. cbn iota.
        destruct gap; rewrite IHa; reflexivity.
      * cbn [split_from]. change (is_space 13) with true. cbn iota.
        destruct gap; rewrite IHb; reflexivity.
    + cbn [split_from]. destruct (is_space c); [destruct gap |];
        rewrite IHb; reflexivity.
Qed.

Lemma tokenize_raw (text : list N) :
  _tokenize text = List.filter (fun w => len w >? 0) (split_spaces text).
Proof.
  unfold _tokenize, split_spaces.
  rewrite (proj1 (split_replace_crlf text)). reflexivity.
Qed.

(** X14. The line-ending normalisation of the tokenizer has no effect on
    its result: a carriage return and a line feed are both white space, so
    splitting the raw text yields the same pieces, and the tokens are the
    non-empty pieces between runs of white space. *)
Theorem tokenize_ignores_crlf (text : list N) :
  split_spaces (replace_crlf text) = split_spaces text
  ∧ _tokenize text = List.filter (fun w => len w >? 0) (split_spaces text).
Proof.
  assert (H : split_spaces (replace_crlf text) = split_spaces text)
    by apply (proj1 (split_replace_crlf text)).
  split; [exact H |]. unfold _tokenize. rewrite H. reflexivity.
Qed.

Lemma split_from_word (w piece rest : list N) (gap : bool) :
  Forall (fun c => is_space c = false) w -> w ≠ [] ->
  split_from piece gap (w ++ rest) = split_from (piece ++ w) false rest.
Proof.
  revert piece gap. induction w as [|c w IH]; intros piece gap Hw Hne;
    [congruence |].
  apply Forall_cons in Hw as [Hc Hw].
  cbn [app split_from]. rewrite Hc.
  destruct w as [|c2 w].
  - reflexivity.
  - rewrite IH by (try exact Hw; discriminate).
    rewrite <- app_assoc. reflexivity.
Qed.

Lemma split_join_solid (ws : list (list N)) (gap : bool) :
  Forall solid_word ws -> ws ≠ [] ->
  split_from [] gap (join (map Some ws)) = ws.
Proof.
  revert gap. induction ws as [|w ws IH]; intros gap Hall Hne; [congruence |].
  apply Forall_cons in Hall as [[Hw Hs] Hall].
  destruct ws as [|w2 ws].
  - cbn [map join default from_option id].
    rewrite <- (app_nil_r w) at 1.
    rewrite split_from_word by assumption. reflexivity.
  - change (join (map Some (w :: w2 :: ws)))
      with (w ++ ch " " :: join (map Some (w2 :: ws))).
    rewrite split_from_word by assumption.
    cbn [split_from app]. change (is_space (ch " ")) with true. cbn iota.
    f_equal. apply IH; [exact Hall | discriminate].
Qed.

(** X15. Tokenizing is a left inverse of joining: for words that are not
    empty and hold no white space, tokenizing their space-joined text gives
    back exactly those words, in order.  In particular tokenizing the joined
    tokens of any text reproduces the tokens. *)
Theorem tokenize_join_round_trip (ws : list (list N)) :
  Forall solid_word ws -> _tokenize (join (map Some ws)) = ws.
Proof.
  intros Hall.
  rewrite tokenize_raw.
  destruct ws as [|w ws]; [reflexivity |].
  unfold split_spaces. rewrite split_join_solid by (try exact Hall; discriminate).
  apply forallb_filter_id. apply forallb_forall. intros x Hx.
  rewrite Forall_forall in Hall.
  destruct (Hall x (proj2 (list_elem_of_In _ _) Hx)) as [Hne _].
  destruct x; [congruence | reflexivity].
Qed.

Lemma fox_sequence_solid : Forall solid_word fox_sequence.
Proof.
  unfold fox_sequence.
  repeat (apply Forall_cons; split;
          [split; [discriminate | repeat constructor] |]).
  apply Forall_nil_2.
Qed.

Lemma tokenize_join_round_trip_witness :
  Forall solid_word fox_sequence
  ∧ _tokenize (join (map Some fox_sequence)) = fox_sequence.
Proof.
  split; [exact fox_sequence_solid |].
  exact (tokenize_join_round_trip fox_sequence fox_sequence_solid).
Defined.

Lemma gatherChunk_members (ws : list (list N)) (index : Z) (n : nat) (i : Z)
      (x : option (list N)) :
  x ∈ gatherChunk ws index i n -> x = None ∨ ∃ w, x = Some w ∧ w ∈ ws.
Proof.
  revert i. induction n as [|n IH]; intros i; cbn [gatherChunk].
  - intros H. apply elem_of_nil in H. destruct H.
  - destruct (index + i <? len ws); [| intros H; apply elem_of_nil in H; destruct H].
    intros H. apply elem_of_cons in H as [-> | H]; [| exact (IH _ H)].
    unfold at_index. destruct (index + i <? 0); [left; reflexivity |].
    destruct (ws !! Z.to_nat (index + i)) as [w|] eqn:E; [right | left; reflexivity].
    exists w. split; [reflexivity |].
    apply list_elem_of_lookup. eexists. exact E.
Qed.

Lemma join_without (c : N) (chunk : list (option (list N))) :
  c ≠ ch " " ->
  (∀ x, x ∈ chunk -> x = None ∨ ∃ w, x = Some w ∧ c ∉ w) ->
  c ∉ join chunk.
Proof.
  intros Hc. induction chunk as [|x chunk IH]; intros Hall.
  - apply not_elem_of_nil.
  - assert (Hx : c ∉ default [] x).
    { destruct (Hall x) as [-> | (w & -> & Hw)];
        [apply elem_of_cons; left; reflexivity | apply not_elem_of_nil | exact Hw]. }
    assert (Hrest : c ∉ join chunk).
    { apply IH. intros y Hy. apply Hall, elem_of_cons. right. exact Hy. }
    destruct chunk as [|y chunk]; [exact Hx |].
    change (join (x :: y :: chunk))
      with (default [] x ++ ch " " :: join (y :: chunk)).
    rewrite elem_of_app, elem_of_cons. intuition.
Qed.

(** X16. A chunk built from tokenized text never holds a line break: the
    tokenizer splits on every line break and the chunk joins words with
    spaces, so the newline half of the paragraph test in [_calculateDelay]
    never fires for such a sequence, at any position and chunk size. *)
Theorem tokenized_chunk_has_no_newline (text : list N) (s : Engine) :
  str_includes (displayWord (set_words (_tokenize text) s)) newline = false.
Proof.
  unfold str_includes. rewrite existsb_eqb_elem.
  apply bool_decide_eq_false. unfold displayWord.
  apply join_without; [discriminate |].
  intros x Hx. apply gatherChunk_members in Hx as [-> | (w & -> & Hw)];
    [left; reflexivity | right].
  exists w. split; [reflexivity |].
  cbn [words set_words] in Hw. apply list_elem_of_In in Hw.
  apply filter_In in Hw as [Hin _].
  pose proof (split_from_solid (replace_crlf text) [] false (Forall_nil_2 _))
    as Hall.
  rewrite Forall_forall in Hall.
  specialize (Hall w (proj2 (list_elem_of_In _ _) Hin)).
  rewrite Forall_forall in Hall. intros Hn.
  specialize (Hall _ Hn). discriminate.
Qed.

(* ===================================================================== *)
(** * Restarting                                                           *)
(* ===================================================================== *)

(** X17. [play()] at or past the end of a sequence that is not empty starts
    over: it announces play, shows the first chunk (word event with index 0)
    and its progress, and leaves the position at the chunk size with the
    engine playing. *)
Theorem play_restarts_at_end (s : Engine) :
  words s ≠ [] -> len (words s) <= currentIndex s ->
  trace_of play s
  = deliver s
      [("play"%string, Undefined);
       ("word"%string,
        WordData (chunk_text (words s) (chunkSize s) 0) 0
                 (splitAtORP (chunk_text (words s) (chunkSize s) 0)));
       ("progress"%string, ProgressData (progress_at (words s) (wpm s) 0))]
  ∧ currentIndex (state_after play s) = chunkSize s
  ∧ isPlaying (state_after play s) = true
  ∧ isPaused (state_after play s) = false.
Proof.
  intros Hne Hi. apply len_nonempty in Hne.
  rewrite play_state, play_trace.
  replace (len (words s) =? 0) with false by (symmetry; apply Z.eqb_neq; lia).
  replace (currentIndex s >=? len (words s)) with true
    by (symmetry; apply Z.geb_le; lia).
  set (p0 := set_isPaused false (set_isPlaying true (set_currentIndex 0 s))).
  destruct (tick_shows_chunk p0) as [-> ->];
    [reflexivity | subst p0; cbn; lia |].
  split; [| split; [| split]; reflexivity].
  symmetry. etransitivity; [apply deliver_cons | reflexivity].
Qed.

Lemma play_restarts_at_end_witness :
  words tail_state ≠ [] ∧ len (words tail_state) <= currentIndex tail_state
  ∧ currentIndex (state_after play tail_state) = chunkSize tail_state.
Proof.
  assert (H1 : words tail_state ≠ []) by (vm_compute; discriminate).
  assert (H2 : len (words tail_state) <= currentIndex tail_state)
    by (vm_compute; discriminate).
  split; [exact H1 |]. split; [exact H2 |].
  exact (proj1 (proj2 (play_restarts_at_end tail_state H1 H2))).
Defined.
